(** * Particle boundary exchange of AthenaK (bvals_part.cpp)

    A shallow embedding of the particle boundary-value tasks
    [SetNewPrtclGID], [CountSendsAndRecvs], [InitPrtclRecv],
    [PackAndSendPrtcls], [ClearPrtclSend] and [ClearPrtclRecv], built with
    MPI_PARALLEL_ENABLED, together with the properties that the design
    document states about them.

    Conventions of the embedding.
    - [Real] is embedded twice.  The kernel only compares positions and
      adds or subtracts the domain width; with the canonical rationals
      [Qc] these operations are exact, which is all the statements on
      block ids, slots, records and counts need.  What the kernel stores
      as a position is a rounded binary64 value: the module [B64]
      transcribes the kernel with primitive floats for the statements on
      the stored positions.
    - C++ [int] values are integers of [Z].  Signed overflow is undefined in
      C++, so the embedding describes the runs without overflow; the
      integers met here are particle counts, indices, gids and ranks.  The
      one initialisation that narrows, of the int data_size with a product
      in std::size_t, is defined for every value and written out with its
      wrap-around.
    - Kokkos views indexed by particle are lists, read with [!!] and written
      with [<[ _ := _ ]>]; the tables handed over by the mesh ([mb_size],
      [nghbr]) are read-only index functions.
    - A [par_for] runs its lanes in some order; the order is a parameter
      (a schedule), and the only interaction between lanes is the atomic
      departure counter.  The bounds of a [par_for] are inclusive; a lane
      that indexes a view outside its extent has no defined behaviour, and
      the embedding leaves the views as they are in such a lane.
    - MPI calls are recorded as the list of requests they post; whether a
      call reports MPI_SUCCESS is an oracle, consulted after the posting
      loop as in the source.  The bytes on the wire and the diagnostic
      output of CountSendsAndRecvs leave no trace in the embedding. *)

From Stdlib Require Import ZArith QArith Qcanon Lia Lqa.
From Stdlib Require PrimFloat SpecFloat FloatOps FloatAxioms.

From stdpp Require Import base numbers list sets sorting.

Local Open Scope Z_scope.

(** * Part I: the embedding *)

(** ** Data model *)

Abbreviation Real := Qc.

(** athena.hpp: extents of a MeshBlock or of the whole Mesh. *)
Record RegionSize := mkRegionSize {
  x1min : Real; x2min : Real; x3min : Real;
  x1max : Real; x2max : Real; x3max : Real
}.

(** Modelled from the spec: the declaration of NeighborBlock (mesh layer) is
    not part of the sources at hand.  The design document describes an entry
    of the neighbor table as a descriptor {neighbor global id, owning rank,
    existence flag}; the kernel below reads [gid] and [rank] only. *)
Record NeighborBlock := mkNeighborBlock {
  gid : Z;
  rank : Z;
  nghbr_exists : bool
}.

(** One entry of the send list filled by [UpdateGID]. *)
Record ParticleSendData := mkParticleSendData {
  prtcl_indx : Z;
  dest_gid : Z;
  dest_rank : Z
}.

Global Instance ParticleSendData_eq_dec : EqDecision ParticleSendData.
Proof. solve_decision. Defined.

(** Row [p] of the view [prtcl_pos]: columns IPX, IPY, IPZ. *)
Record Position := mkPosition { IPX : Real; IPY : Real; IPZ : Real }.

(** What the kernel of [SetNewPrtclGID] captures by reference or by value. *)
Record MeshData := mkMeshData {
  gids : Z;                                (* pmy_pack->gids *)
  mb_size : Z -> RegionSize;               (* pmb->mb_size.d_view(m) *)
  mesh_size : RegionSize;                  (* pmesh->mesh_size *)
  my_rank : Z;                             (* global_variable::my_rank *)
  nghbr : Z -> Z -> NeighborBlock          (* pmb->nghbr.d_view(m,n) *)
}.

(** The arrays the kernel mutates, and the departure counter. *)
Record PrtclState := mkPrtclState {
  prtcl_gid : list Z;
  prtcl_pos : list Position;
  sendlist_buf : list ParticleSendData;
  counter : Z
}.

(** std::tuple<int,int,int> = <sendrank, recvrank, nprtcl>. *)
Definition ituple : Type := Z * Z * Z.

Definition get0 (t : ituple) : Z := t.1.1.

Definition get1 (t : ituple) : Z := t.1.2.

Definition get2 (t : ituple) : Z := t.2.

(** A posted non-blocking operation: the subview (data_start, data_end) of
    the buffer it reads or writes, its size in bytes and the peer rank. *)
Record PostedReq := mkPostedReq {
  data_start_of : Z;
  data_end_of : Z;
  data_size_of : Z;
  drank_of : Z
}.

Global Instance PostedReq_eq_dec : EqDecision PostedReq.
Proof. solve_decision. Defined.

(** What a task hands back: TaskStatus::complete, or no return at all when
    it ends in std::exit(EXIT_FAILURE). *)
Inductive TaskStatus := complete | exit_failure.

(** ** Stage 1: the boundary crossing detector (SetNewPrtclGID) *)

(** [particles::UpdateGID]: [newgid] is the reference [pgid(p)]. *)
Definition UpdateGID (nb : NeighborBlock) (myrank : Z) (p : nat)
    (s : PrtclState) : PrtclState :=
  let pgid' := <[p := gid nb]> (prtcl_gid s) in
  if bool_decide (rank nb ≠ myrank) then
    let index := counter s in          (* Kokkos::atomic_fetch_add(pcounter,1) *)
    mkPrtclState pgid' (prtcl_pos s)
      (<[Z.to_nat index := mkParticleSendData (Z.of_nat p) (gid nb) (rank nb)]>
         (sendlist_buf s))
      (index + 1)
  else
    mkPrtclState pgid' (prtcl_pos s) (sendlist_buf s) (counter s).

(** The nested range tests of the kernel: the second index of
    [nghbr.d_view(m, _)] handed to [UpdateGID], or [None] on the paths that
    call nothing. *)
Definition resolve_slot (mb : RegionSize) (x1 x2 x3 : Real) : option Z :=
  if bool_decide (x1 < x1min mb)%Qc then
    if bool_decide (x2 < x2min mb)%Qc then
      if bool_decide (x3 < x3min mb)%Qc then Some 48
      else if bool_decide (x3max mb < x3)%Qc then Some 52
      else Some 16
    else if bool_decide (x2max mb < x2)%Qc then
      if bool_decide (x3 < x3min mb)%Qc then Some 50
      else if bool_decide (x3max mb < x3)%Qc then Some 54
      else Some 20
    else
      if bool_decide (x3 < x3min mb)%Qc then Some 32
      else if bool_decide (x3max mb < x3)%Qc then Some 36
      else Some 0
  else if bool_decide (x1max mb < x1)%Qc then
    if bool_decide (x2 < x2min mb)%Qc then
      if bool_decide (x3 < x3min mb)%Qc then Some 49
      else if bool_decide (x3max mb < x3)%Qc then Some 53
      else Some 18
    else if bool_decide (x2max mb < x2)%Qc then
      if bool_decide (x3 < x3min mb)%Qc then Some 51
      else if bool_decide (x3max mb < x3)%Qc then Some 55
      else Some 22
    else
      if bool_decide (x3 < x3min mb)%Qc then Some 34
      else if bool_decide (x3max mb < x3)%Qc then Some 38
      else Some 4
  else
    if bool_decide (x2 < x2min mb)%Qc then
      if bool_decide (x3 < x3min mb)%Qc then Some 40
      else if bool_decide (x3max mb < x3)%Qc then Some 44
      else Some 8
    else if bool_decide (x2max mb < x2)%Qc then
      if bool_decide (x3 < x3min mb)%Qc then Some 42
      else if bool_decide (x3max mb < x3)%Qc then Some 46
      else Some 12
    else
      if bool_decide (x2 < x2min mb)%Qc then Some 24
      else if bool_decide (x3max mb < x3)%Qc then Some 28
      else None.

(** One axis of the periodic reset at the end of the kernel, in exact
    arithmetic: [x] is the coordinate read at the top of the lane, which is
    also the value stored in [ppos(p, _)] when the reset runs. *)
Definition periodic_reset (x lo hi : Real) : Real :=
  if bool_decide (x < lo)%Qc then (x + (hi - lo))%Qc
  else if bool_decide (hi < x)%Qc then (x - (hi - lo))%Qc
  else x.

(** The body of the [par_for] in [SetNewPrtclGID] for particle [p].  A lane
    whose row is not in [pgid] or [ppos] indexes these views outside their
    extent: the state is left as it is. *)
Definition SetNewPrtclGID_lane (md : MeshData) (p : nat) (s : PrtclState)
    : PrtclState :=
  match prtcl_gid s !! p, prtcl_pos s !! p with
  | Some g, Some pos =>
    let m := g - gids md in
    let x1 := IPX pos in
    let x2 := IPY pos in
    let x3 := IPZ pos in
    let s1 :=
      match resolve_slot (mb_size md m) x1 x2 x3 with
      | Some n => UpdateGID (nghbr md m n) (my_rank md) p s
      | None => s
      end in
    let ms := mesh_size md in
    let pos' := mkPosition (periodic_reset x1 (x1min ms) (x1max ms))
                           (periodic_reset x2 (x2min ms) (x2max ms))
                           (periodic_reset x3 (x3min ms) (x3max ms)) in
    mkPrtclState (prtcl_gid s1) (<[p := pos']> (prtcl_pos s1))
                 (sendlist_buf s1) (counter s1)
  | _, _ => s
  end.

(** [par_for] over the lanes in the order given by [sched]. *)
Definition par_for {S : Type} (lane : nat -> S -> S) (sched : list nat)
    (s : S) : S :=
  foldl (fun acc p => lane p acc) s sched.

(** The schedules that run each of the [npart] lanes 0 .. npart-1 once, in
    any order. *)
Definition schedule_of (npart : nat) (sched : list nat) : Prop :=
  Permutation sched (seq 0 npart).

(** The lanes of [par_for(il, iu)].  The function is declared in athena.hpp,
    which is not part of the sources at hand; its bounds are inclusive, as
    the call in z4c_ahfind.cpp shows, which runs 0 .. nmb-1 over views of
    nmb blocks.  A kernel launched with the bounds (0, n) therefore runs the
    n+1 lanes 0 .. n, the schedules of [schedule_of (S n)]. *)
Definition par_for_lanes (il iu : Z) : list nat :=
  seq (Z.to_nat il) (Z.to_nat (iu + 1 - il)).

(** [SetNewPrtclGID]: the counter starts at zero; the function returns the
    updated arrays and [nprtcl_send = counter]. *)
Definition SetNewPrtclGID (md : MeshData) (sched : list nat)
    (pgid : list Z) (ppos : list Position) (psendl : list ParticleSendData)
    : PrtclState :=
  par_for (SetNewPrtclGID_lane md) sched (mkPrtclState pgid ppos psendl 0).

Definition nprtcl_send_of (s : PrtclState) : Z := counter s.

(** ** Stage 2: the transfer-list builder (CountSendsAndRecvs, first half) *)

(** Modelled from the spec: the comparator SortByRank is declared in
    bvals.hpp, which is not part of the sources at hand; the design document
    says that the send list is sorted by destination rank. *)
Definition SortByRank (a b : ParticleSendData) : bool :=
  bool_decide (dest_rank a < dest_rank b).

(** What std::sort guarantees for a comparator [comp]: the result is a
    rearrangement of the input in which no element is followed, anywhere
    later, by one that [comp] puts before it.  Ties may come in any order. *)
Definition not_after {A} (comp : A → A → bool) (a b : A) : Prop :=
  comp b a = false.

Global Instance not_after_dec {A} (comp : A → A → bool) :
  RelDecision (not_after comp).
Proof. intros a b. unfold not_after. apply _. Defined.

Definition sort_outcome {A} (comp : A → A → bool) (l sorted : list A) : Prop :=
  sorted ≡ₚ l ∧ StronglySorted (not_after comp) sorted.

(** One such sort, used to run the model. *)
Definition std_sort {A} (comp : A → A → bool) (l : list A) : list A :=
  merge_sort (not_after comp) l.

(** Host copy of the send list: the subview [0, nprtcl_send) of the device
    buffer. *)
Definition sendlist_of (nprtcl_send : Z) (buf : list ParticleSendData)
    : list ParticleSendData :=
  take (Z.to_nat nprtcl_send) buf.

(** The for-loop over n = 1 .. nprtcl_send-1 of CountSendsAndRecvs, at the
    point where [rest] holds the entries still to be visited, and the
    emplace_back that follows the loop. *)
Fixpoint load_sends_loop (myrank rank nprtcl : Z)
    (rest : list ParticleSendData) (sends_thisrank : list ituple)
    : list ituple :=
  match rest with
  | [] => sends_thisrank ++ [(myrank, rank, nprtcl)]
  | r :: rest' =>
    if bool_decide (dest_rank r = rank)
    then load_sends_loop myrank rank (nprtcl + 1) rest' sends_thisrank
    else load_sends_loop myrank (dest_rank r) 1 rest'
           (sends_thisrank ++ [(myrank, rank, nprtcl)])
  end.

(** sends_thisrank.clear(); if (nprtcl_send > 0) { ... } *)
Definition load_sends (myrank : Z) (sendlist : list ParticleSendData)
    : list ituple :=
  match sendlist with
  | [] => []
  | r0 :: rest => load_sends_loop myrank (dest_rank r0) 1 rest []
  end.

(** The rank-local part of CountSendsAndRecvs: copy, sort, coalesce. *)
Definition CountSends (myrank nprtcl_send : Z) (buf : list ParticleSendData)
    : list ituple :=
  load_sends myrank (std_sort SortByRank (sendlist_of nprtcl_send buf)).

(** ** Stage 3: the rendezvous (CountSendsAndRecvs, second half) *)

(** Writing the elements [xs] into the array [buf] at consecutive indices
    starting at [i]. *)
Fixpoint store_at {A} (i : nat) (xs buf : list A) : list A :=
  match xs with
  | [] => buf
  | x :: xs' => store_at (S i) xs' (<[i := x]> buf)
  end.

(** nsends_displ: entry n is the sum of nsends_eachrank[0 .. n-1]. *)
Fixpoint displ_from (acc : Z) (nsends_eachrank : list Z) : list Z :=
  match nsends_eachrank with
  | [] => []
  | c :: rest => acc :: displ_from (acc + c) rest
  end.

Definition nsends_displ (nsends_eachrank : list Z) : list Z :=
  displ_from 0 nsends_eachrank.

(** nsends_displ[nranks-1] + nsends_eachrank[nranks-1] *)
Definition nsends_allranks_of (nsends_eachrank : list Z) : Z :=
  default 0 (last (nsends_displ nsends_eachrank))
  + default 0 (last nsends_eachrank).

(** MPI_Allgatherv: the contribution of rank r lands at displacement
    displs[r] of the receive buffer, on every rank alike. *)
Definition MPI_Allgatherv {A} (contribs : list (list A)) (displs : list Z)
    (recvbuf : list A) : list A :=
  foldl (λ buf dc, store_at (Z.to_nat dc.1) dc.2 buf) recvbuf
        (zip displs contribs).

(** The global triple array every rank holds after the rendezvous, from the
    triple lists of all ranks (in rank order) and the previous contents
    [old] of its sends_allranks vector. *)
Definition gather_sends (sends_eachrank : list (list ituple))
    (old : list ituple) : list ituple :=
  let nsends_eachrank := (λ s, Z.of_nat (length s)) <$> sends_eachrank in
  let displ := nsends_displ nsends_eachrank in
  let total := nsends_allranks_of nsends_eachrank in
  MPI_Allgatherv sends_eachrank displ
                 (resize (Z.to_nat total) (0, 0, 0) old).

(** ** Stages 4, 5 and 7: InitPrtclRecv, PackAndSendPrtcls, ClearPrtclSend
       and ClearPrtclRecv *)

(** for n in 0 .. nsends_allranks-1: keep the triples sent to this rank. *)
Fixpoint load_recvs (myrank : Z) (sends_allranks : list ituple)
    (recvs_thisrank : list ituple) : list ituple :=
  match sends_allranks with
  | [] => recvs_thisrank
  | t :: rest =>
    if bool_decide (get1 t = myrank)
    then load_recvs myrank rest (recvs_thisrank ++ [t])
    else load_recvs myrank rest recvs_thisrank
  end.

(** nprtcl_recv += std::get<2>(recvs_thisrank[n]), for the recv and the send
    side alike. *)
Definition sum_counts (ts : list ituple) : Z :=
  foldl (λ acc t, acc + get2 t) 0 ts.

(** Conversion of an integer to std::size_t (64 bits, unsigned), and of a
    std::size_t value to int (32 bits, two's complement). *)
Definition to_size_t (z : Z) : Z := z mod 2 ^ 64.

Definition to_int (z : Z) : Z := (z + 2 ^ 31) mod 2 ^ 32 - 2 ^ 31.

Section Posting.
(** sizeof(ParticleData), a std::size_t *)
Variable sizeof_ParticleData : Z.

(** int data_size = nprtcl * sizeof(ParticleData): the int [nprtcl] is
    converted to std::size_t, the product is taken in std::size_t, and the
    initialisation narrows it to int. *)
Definition data_size_for (nprtcl : Z) : Z :=
  to_int (to_size_t (to_size_t nprtcl * sizeof_ParticleData)).

(** The loop posting the receives, entered with the current value of the
    variable data_start; the loop body computes data_end and posts, and
    leaves data_start as it is. *)
Fixpoint post_recvs (data_start : Z) (recvs_thisrank : list ituple)
    : list PostedReq :=
  match recvs_thisrank with
  | [] => []
  | t :: rest =>
    let data_size := data_size_for (get2 t) in
    let data_end := data_start + get2 t in
    let drank := get0 t in
    mkPostedReq data_start data_end data_size drank
      :: post_recvs data_start rest
  end.

(** The loop posting the sends; same shape, the peer is the destination. *)
Fixpoint post_sends (data_start : Z) (sends_thisrank : list ituple)
    : list PostedReq :=
  match sends_thisrank with
  | [] => []
  | t :: rest =>
    let data_size := data_size_for (get2 t) in
    let data_end := data_start + get2 t in
    let drank := get1 t in
    mkPostedReq data_start data_end data_size drank
      :: post_sends data_start rest
  end.

(** Outcome of InitPrtclRecv on one rank. *)
Record RecvState := mkRecvState {
  recvs_thisrank_of : list ituple;
  nrecvs_of : Z;
  nprtcl_recv_of : Z;
  posted_recvs : list PostedReq
}.

Definition InitPrtclRecv (myrank : Z) (sends_allranks : list ituple)
    : RecvState :=
  let recvs := load_recvs myrank sends_allranks [] in
  let nprtcl_recv := sum_counts recvs in
  mkRecvState recvs (Z.of_nat (length recvs)) nprtcl_recv
              (post_recvs 0 recvs).

(** Outcome of PackAndSendPrtcls on one rank: the recomputed nprtcl_send
    and the sends posted. *)
Record SendState := mkSendState {
  nprtcl_send_recomputed : Z;
  posted_sends : list PostedReq
}.

Definition PackAndSendPrtcls (sends_thisrank : list ituple) : SendState :=
  let nprtcl_send := sum_counts sends_thisrank in
  if bool_decide (0 < nprtcl_send)
  then mkSendState nprtcl_send (post_sends 0 sends_thisrank)
  else mkSendState nprtcl_send [].

(** Indices of the requests ClearPrtclSend / ClearPrtclRecv wait for. *)
Definition ClearPrtcl_waits (nreq : Z) : list nat := seq 0 (Z.to_nat nreq).

(** How a posting task ends: every request of the loop is posted first,
    then the task exits if one of the calls did not report MPI_SUCCESS. *)
Definition task_status (mpi_success : PostedReq → bool)
    (posted : list PostedReq) : TaskStatus :=
  if forallb mpi_success posted then complete else exit_failure.
End Posting.

(** ** All ranks of a run *)

(** Sum of a list of integers, used for sums over ranks. *)
Definition Zsum (l : list Z) : Z := foldr Z.add 0 l.

(** The triple lists of all ranks after stage 2, rank r at index r, from
    the send lists the ranks hold after stage 1. *)
Definition sends_eachrank_of (sendlists : list (list ParticleSendData))
    : list (list ituple) :=
  imap (λ r l, load_sends (Z.of_nat r) (std_sort SortByRank l)) sendlists.

Section AllRanks.
Variable sizeof_ParticleData : Z.

(** Sum over all ranks of the counts in the triples built in stage 2. *)
Definition total_outbound (sendlists : list (list ParticleSendData)) : Z :=
  Zsum (sum_counts <$> sends_eachrank_of sendlists).

(** Stage 4 on rank [r], whose sends_allranks vector held [old r] before
    the rendezvous. *)
Definition recv_side (sendlists : list (list ParticleSendData))
    (old : nat → list ituple) (r : nat) : RecvState :=
  InitPrtclRecv sizeof_ParticleData (Z.of_nat r)
    (gather_sends (sends_eachrank_of sendlists) (old r)).

(** Sum over all ranks of the nprtcl_recv each rank computes in stage 4. *)
Definition total_inbound (sendlists : list (list ParticleSendData))
    (old : nat → list ituple) : Z :=
  Zsum ((λ r, nprtcl_recv_of (recv_side sendlists old r))
          <$> seq 0 (length sendlists)).

(** The triple list of rank [r], and stage 5 on rank [r]. *)
Definition sends_thisrank_of (sendlists : list (list ParticleSendData))
    (r : nat) : list ituple :=
  default [] (sends_eachrank_of sendlists !! r).

Definition send_side (sendlists : list (list ParticleSendData)) (r : nat)
    : SendState :=
  PackAndSendPrtcls sizeof_ParticleData (sends_thisrank_of sendlists r).

(** Rank [r] goes through stages 2 to 7 without building a triple, without
    gathering one, without posting or awaiting a request, and both posting
    tasks return. *)
Definition quiet_step (sendlists : list (list ParticleSendData))
    (old : nat → list ituple) (mpi_success : PostedReq → bool) (r : nat)
    : Prop :=
  let rs := recv_side sendlists old r in
  let ss := send_side sendlists r in
  sends_thisrank_of sendlists r = [] ∧
  gather_sends (sends_eachrank_of sendlists) (old r) = [] ∧
  recvs_thisrank_of rs = [] ∧ nprtcl_recv_of rs = 0 ∧
  posted_recvs rs = [] ∧ posted_sends ss = [] ∧
  task_status mpi_success (posted_recvs rs) = complete ∧
  task_status mpi_success (posted_sends ss) = complete ∧
  ClearPrtcl_waits (Z.of_nat (length (sends_thisrank_of sendlists r))) = [] ∧
  ClearPrtcl_waits (nrecvs_of rs) = [].
End AllRanks.

(** ** Vocabulary of the statements: one particle *)

(** The neighbor-table entry the lane of a particle with owning block [g]
    and position [pos] hands to [UpdateGID], if any. *)
Definition resolved_nghbr (md : MeshData) (g : Z) (pos : Position)
    : option NeighborBlock :=
  nghbr md (g - gids md) <$>
    resolve_slot (mb_size md (g - gids md)) (IPX pos) (IPY pos) (IPZ pos).

(** Value of [pgid(p)] when the lane is done. *)
Definition gid_after (md : MeshData) (g : Z) (pos : Position) : Z :=
  from_option gid g (resolved_nghbr md g pos).

(** Value of row [p] of [ppos] when the lane is done. *)
Definition pos_after (md : MeshData) (pos : Position) : Position :=
  let ms := mesh_size md in
  mkPosition (periodic_reset (IPX pos) (x1min ms) (x1max ms))
             (periodic_reset (IPY pos) (x2min ms) (x2max ms))
             (periodic_reset (IPZ pos) (x3min ms) (x3max ms)).

(** The record the lane writes into the send list, if any. *)
Definition departure (md : MeshData) (p : nat) (g : Z) (pos : Position)
    : option ParticleSendData :=
  nb ← resolved_nghbr md g pos;
  if bool_decide (rank nb ≠ my_rank md)
  then Some (mkParticleSendData (Z.of_nat p) (gid nb) (rank nb))
  else None.

(** Departure of particle [p] as read from the arrays of state [s]. *)
Definition departure_at (md : MeshData) (s : PrtclState) (p : nat)
    : option ParticleSendData :=
  g ← prtcl_gid s !! p; pos ← prtcl_pos s !! p; departure md p g pos.

(** The records written by the lanes of [sched], in the order in which the
    lanes take their index from the counter. *)
Definition departures (md : MeshData) (sched : list nat) (s : PrtclState)
    : list ParticleSendData :=
  omap (departure_at md s) sched.

(** Particle [p] leaves the rank: its lane resolves an entry whose rank is
    not the local one. *)
Definition off_rank (md : MeshData) (pgid : list Z) (ppos : list Position)
    (p : nat) : Prop :=
  is_Some (departure_at md (mkPrtclState pgid ppos [] 0) p).

Global Instance off_rank_dec md pgid ppos p : Decision (off_rank md pgid ppos p).
Proof. unfold off_rank. apply _. Defined.

(** ** Vocabulary of the statements: extents and slots *)

Inductive Dir := Lo | Hi.

(** The coordinate [x] lies beyond the low or the high end of [lo, hi]. *)
Definition past (d : Dir) (x lo hi : Real) : Prop :=
  match d with
  | Lo => (x < lo)%Qc
  | Hi => (hi < x)%Qc
  end.

(** The coordinate [x] lies beyond neither end. *)
Definition within (x lo hi : Real) : Prop := (lo ≤ x)%Qc ∧ (x ≤ hi)%Qc.

Global Instance past_dec d x lo hi : Decision (past d x lo hi).
Proof. destruct d; simpl; apply _. Defined.

Global Instance within_dec x lo hi : Decision (within x lo hi).
Proof. unfold within. apply _. Defined.

(** A region whose minimum does not exceed its maximum on any axis. *)
Definition well_formed (r : RegionSize) : Prop :=
  (x1min r ≤ x1max r)%Qc ∧ (x2min r ≤ x2max r)%Qc ∧ (x3min r ≤ x3max r)%Qc.

Global Instance well_formed_dec r : Decision (well_formed r).
Proof. unfold well_formed. apply _. Defined.

(** The particle lies within all six extents of the region. *)
Definition inside (r : RegionSize) (pos : Position) : Prop :=
  within (IPX pos) (x1min r) (x1max r) ∧
  within (IPY pos) (x2min r) (x2max r) ∧
  within (IPZ pos) (x3min r) (x3max r).

Global Instance inside_dec r pos : Decision (inside r pos).
Proof. unfold inside. apply _. Defined.

Inductive Axis := X1 | X2 | X3.

(** Modelled from the spec: the numbering of the 56 neighbor slots belongs
    to the mesh layer, which is not part of the sources at hand.  The design
    document fixes the kinds of slots (faces, edges per axis pair, corners
    per octant) and one entry, slot 48 for the low-x/low-y/low-z corner.
    The tables below write the numbering out: faces at 0 and 4 (x1), 8 and
    12 (x2), 24 and 28 (x3); x1x2 edges from 16, x3x1 edges from 32, x2x3
    edges from 40, in steps of two, and corners from 48 in steps of one,
    the first axis varying fastest. *)
Definition face_slot (a : Axis) (d : Dir) : Z :=
  match a, d with
  | X1, Lo => 0  | X1, Hi => 4
  | X2, Lo => 8  | X2, Hi => 12
  | X3, Lo => 24 | X3, Hi => 28
  end.

Definition edge_x1x2_slot (d1 d2 : Dir) : Z :=
  match d1, d2 with
  | Lo, Lo => 16 | Hi, Lo => 18 | Lo, Hi => 20 | Hi, Hi => 22
  end.

Definition edge_x3x1_slot (d1 d3 : Dir) : Z :=
  match d1, d3 with
  | Lo, Lo => 32 | Hi, Lo => 34 | Lo, Hi => 36 | Hi, Hi => 38
  end.

Definition edge_x2x3_slot (d2 d3 : Dir) : Z :=
  match d2, d3 with
  | Lo, Lo => 40 | Hi, Lo => 42 | Lo, Hi => 44 | Hi, Hi => 46
  end.

Definition corner_slot (d1 d2 d3 : Dir) : Z :=
  match d1, d2, d3 with
  | Lo, Lo, Lo => 48 | Hi, Lo, Lo => 49 | Lo, Hi, Lo => 50 | Hi, Hi, Lo => 51
  | Lo, Lo, Hi => 52 | Hi, Lo, Hi => 53 | Lo, Hi, Hi => 54 | Hi, Hi, Hi => 55
  end.

Definition is_face_slot (n : Z) : Prop := ∃ a d, n = face_slot a d.

Definition is_edge_slot (n : Z) : Prop :=
  ∃ d d', n = edge_x1x2_slot d d' ∨ n = edge_x3x1_slot d d'
          ∨ n = edge_x2x3_slot d d'.

Definition is_corner_slot (n : Z) : Prop := ∃ d1 d2 d3, n = corner_slot d1 d2 d3.

(** Where a coordinate stands with respect to an extent pair: beyond one
    end ([Some d]) or beyond neither ([None]). *)
Definition status (c : option Dir) (x lo hi : Real) : Prop :=
  match c with
  | Some d => past d x lo hi
  | None => within x lo hi
  end.

Global Instance status_dec c x lo hi : Decision (status c x lo hi).
Proof. destruct c; simpl; apply _. Defined.

(** Number of axes on which the particle is beyond an extent. *)
Definition crossed (c1 c2 c3 : option Dir) : nat :=
  length (omap id [c1; c2; c3]).

(** The slot the numbering assigns to a crossing pattern. *)
Definition table_slot (c1 c2 c3 : option Dir) : option Z :=
  match c1, c2, c3 with
  | Some d1, Some d2, Some d3 => Some (corner_slot d1 d2 d3)
  | Some d1, Some d2, None => Some (edge_x1x2_slot d1 d2)
  | Some d1, None, Some d3 => Some (edge_x3x1_slot d1 d3)
  | None, Some d2, Some d3 => Some (edge_x2x3_slot d2 d3)
  | Some d1, None, None => Some (face_slot X1 d1)
  | None, Some d2, None => Some (face_slot X2 d2)
  | None, None, Some d3 => Some (face_slot X3 d3)
  | None, None, None => None
  end.

(** The position [pos] stands as [c1], [c2], [c3] with respect to the
    extents of [mb] on the three axes. *)
Definition stands (mb : RegionSize) (pos : Position) (c1 c2 c3 : option Dir)
    : Prop :=
  status c1 (IPX pos) (x1min mb) (x1max mb) ∧
  status c2 (IPY pos) (x2min mb) (x2max mb) ∧
  status c3 (IPZ pos) (x3min mb) (x3max mb).

Global Instance stands_dec mb pos c1 c2 c3 : Decision (stands mb pos c1 c2 c3).
Proof. unfold stands. apply _. Defined.

(** What the reset does to one coordinate [x], giving [x']. *)
Definition wrapped (x x' lo hi : Real) : Prop :=
  ((hi < x)%Qc → x' = (x - (hi - lo))%Qc) ∧
  ((x < lo)%Qc → x' = (x + (hi - lo))%Qc) ∧
  (∀ delta : Real, (0 < delta)%Qc → (delta < hi - lo)%Qc →
     x = (hi + delta)%Qc → x' = (lo + delta)%Qc).

(** ** Vocabulary of the statements: triples and segments *)

(** The destination ranks of a list of records, in order. *)
Definition ranks (l : list ParticleSendData) : list Z := dest_rank <$> l.

(** The rank sequence a triple list stands for: each triple is a run of
    [get2] copies of the rank [get1]. *)
Definition runs_of (ts : list ituple) : list Z :=
  ts ≫= λ t, replicate (Z.to_nat (get2 t)) (get1 t).

(** Equal destination ranks are contiguous in [l]. *)
Definition contiguous_ranks (l : list ParticleSendData) : Prop :=
  ∀ i j k a b c, (i ≤ j)%nat → (j ≤ k)%nat →
    l !! i = Some a → l !! j = Some b → l !! k = Some c →
    dest_rank a = dest_rank c → dest_rank b = dest_rank a.

(** The segments the design document assigns to a triple list: segment n
    starts where segment n-1 ends, the first one at [start]. *)
Fixpoint segments_from (start : Z) (ts : list ituple) : list (Z * Z) :=
  match ts with
  | [] => []
  | t :: rest => (start, start + get2 t) :: segments_from (start + get2 t) rest
  end.

(** The subview (data_start, data_end) of a posted request. *)
Definition segment_of (r : PostedReq) : Z * Z :=
  (data_start_of r, data_end_of r).

(** ** Runs of the model *)

(** A two-block mesh used to run the kernel.

    Two unit blocks stacked along x3, block 0 on rank 0 and block 1 on rank
    1, seen from rank 0.  In [Slab.md] the mesh is periodic: across an x1 or
    x2 boundary block 0 meets itself, across anything that involves x3
    (slots 24 and up) it meets block 1.  In [Slab.md_open] the low x3 and
    the low x1 side of block 0 are edges of the domain: the entries of
    slots 24 and 0 hold the sentinel -1 and no neighbor. *)
Module Slab.
Definition q (n : Z) (d : positive) : Real := Q2Qc (n # d).

Definition block0 : RegionSize :=
  mkRegionSize (q 0 1) (q 0 1) (q 0 1) (q 1 1) (q 1 1) (q 1 1).
Definition mesh : RegionSize :=
  mkRegionSize (q 0 1) (q 0 1) (q 0 1) (q 1 1) (q 1 1) (q 2 1).

Definition table (m n : Z) : NeighborBlock :=
  if bool_decide (24 ≤ n) then mkNeighborBlock 1 1 true
  else mkNeighborBlock 0 0 true.

Definition table_open (m n : Z) : NeighborBlock :=
  if bool_decide (n = 24 ∨ n = 0) then mkNeighborBlock (-1) (-1) false
  else table m n.

Definition md : MeshData := mkMeshData 0 (λ _, block0) mesh 0 table.
Definition md_open : MeshData :=
  mkMeshData 0 (λ _, block0) mesh 0 table_open.

(** Six particles of block 0 after a push: one that stayed inside, one
    past the high x3 face, one past the low x3 face, one past the low x1
    face, one past the high x1 / high x2 edge, one past the low corner. *)
Definition ppos : list Position :=
  [ mkPosition (q 1 2) (q 1 2) (q 1 2);
    mkPosition (q 1 2) (q 1 2) (q 11 10);
    mkPosition (q 1 2) (q 1 2) (q (-1) 10);
    mkPosition (q (-1) 10) (q 1 2) (q 1 2);
    mkPosition (q 11 10) (q 6 5) (q 1 2);
    mkPosition (q (-1) 10) (q (-1) 10) (q (-1) 10) ].
Definition pgid : list Z := [0; 0; 0; 0; 0; 0].
Definition psendl : list ParticleSendData :=
  replicate 6 (mkParticleSendData 0 0 0).
Definition sched : list nat := [0; 1; 2; 3; 4; 5]%nat.

(** The send list rank 0 holds after the detector has run on the open
    slab, and the send lists of the two ranks of that run: rank 1 has no
    departure. *)
Definition sendlist_open : list ParticleSendData :=
  let s := SetNewPrtclGID md_open sched pgid ppos psendl in
  sendlist_of (nprtcl_send_of s) (sendlist_buf s).
Definition sendlists_open : list (list ParticleSendData) :=
  [sendlist_open; []].
End Slab.

(** Three ranks used to run the exchange.

    Rank 0 sends three particles to rank 2; rank 1 sends two particles to
    rank 2 and one to rank 0; rank 2 sends nothing. *)
Module Trio.
Definition sendlists : list (list ParticleSendData) :=
  [ [mkParticleSendData 4 21 2; mkParticleSendData 7 20 2;
     mkParticleSendData 9 21 2];
    [mkParticleSendData 1 20 2; mkParticleSendData 3 5 0;
     mkParticleSendData 8 22 2];
    [] ].
Definition old (r : nat) : list ituple := [(9, 9, 9)].
End Trio.

(** Ten particles, three of which leave for rank 1.

    The first scenario of the design document, on the periodic slab seen
    from rank 0: particles 2, 5 and 8 have crossed the high x3 face. *)
Module Ten.
Definition stay : Position := mkPosition (Slab.q 1 2) (Slab.q 1 2) (Slab.q 1 2).
Definition leave : Position :=
  mkPosition (Slab.q 1 2) (Slab.q 1 2) (Slab.q 11 10).
Definition ppos : list Position :=
  [stay; stay; leave; stay; stay; leave; stay; stay; leave; stay].
Definition pgid : list Z := replicate 10 0.
Definition psendl : list ParticleSendData :=
  replicate 10 (mkParticleSendData 0 0 0).
Definition after_stage1 : PrtclState :=
  SetNewPrtclGID Slab.md (seq 0 10) pgid ppos psendl.
Definition sends_rank0 : list ituple :=
  CountSends 0 (nprtcl_send_of after_stage1) (sendlist_buf after_stage1).
Definition sends_allranks : list ituple := gather_sends [sends_rank0; []] [].
End Ten.

(** ** Stage 5, first half: loading the send buffer *)

(** Row [p] of the view [prtcl_vel]: columns IVX, IVY, IVZ. *)
Record Velocity := mkVelocity { IVX : Real; IVY : Real; IVZ : Real }.

(** One element of prtcl_sendbuf, with the fields the kernel assigns. *)
Record ParticleData := mkParticleData {
  pd_dest_gid : Z;
  pd_x : Real; pd_y : Real; pd_z : Real;
  pd_vx : Real; pd_vy : Real; pd_vz : Real
}.

(** Element [p] of a view indexed by an int, if the view has it. *)
Definition row {A} (v : list A) (p : Z) : option A :=
  if bool_decide (0 ≤ p) then v !! Z.to_nat p else None.

(** The send buffer during the kernel that loads it.  Indexing a view
    outside its extent is undefined in C++; the embedding keeps the buffer
    as it is and records the lane in [out_of_bounds]. *)
Record PackState := mkPackState {
  prtcl_sendbuf : list ParticleData;
  out_of_bounds : list nat
}.

(** The body of the [par_for] of PackAndSendPrtcls for lane [n]:
    [sendlist] is the device copy of the sorted send list, [ppos] and [pvel]
    the particle arrays.  The lane indexes prtcl_sendbuf and sendlist at
    [n], and ppos and pvel at the particle index of the entry. *)
Definition PackPrtcls_lane (sendlist : list ParticleSendData)
    (ppos : list Position) (pvel : list Velocity) (n : nat)
    (s : PackState) : PackState :=
  let fault := mkPackState (prtcl_sendbuf s) (n :: out_of_bounds s) in
  match prtcl_sendbuf s !! n, sendlist !! n with
  | Some _, Some entry =>
    let p := prtcl_indx entry in
    match row ppos p, row pvel p with
    | Some pos, Some vel =>
      mkPackState
        (<[n := mkParticleData (dest_gid entry) (IPX pos) (IPY pos) (IPZ pos)
                               (IVX vel) (IVY vel) (IVZ vel)]>
           (prtcl_sendbuf s))
        (out_of_bounds s)
    | _, _ => fault
    end
  | _, _ => fault
  end.

(** Kokkos::realloc(prtcl_sendbuf, nprtcl_send) followed by the [par_for]
    launched with the bounds (0, nprtcl_send), its lanes run in the order
    [sched]; [fresh] is the element the reallocated view is filled with. *)
Definition PackPrtcls (sched : list nat) (nprtcl_send : Z)
    (fresh : ParticleData) (sendlist : list ParticleSendData)
    (ppos : list Position) (pvel : list Velocity) : PackState :=
  par_for (PackPrtcls_lane sendlist ppos pvel) sched
          (mkPackState (replicate (Z.to_nat nprtcl_send) fresh) []).

(** The entry names a particle that has a row in [ppos] and in [pvel]. *)
Definition names_a_particle (ppos : list Position) (pvel : list Velocity)
    (r : ParticleSendData) : Prop :=
  is_Some (row ppos (prtcl_indx r)) ∧ is_Some (row pvel (prtcl_indx r)).

(** Lane [n] of the kernel stays within the views it indexes, for a buffer
    of [len] elements. *)
Definition within_views (sendlist : list ParticleSendData)
    (ppos : list Position) (pvel : list Velocity) (len n : nat) : Prop :=
  (n < len)%nat ∧
  from_option (names_a_particle ppos pvel) False (sendlist !! n).

Global Instance names_a_particle_dec ppos pvel r :
  Decision (names_a_particle ppos pvel r).
Proof. unfold names_a_particle. apply _. Defined.

Global Instance within_views_dec sendlist ppos pvel len n :
  Decision (within_views sendlist ppos pvel len n).
Proof.
  unfold within_views. destruct (sendlist !! n); simpl; apply _.
Defined.

(** The record built for slot [n] from a send-list entry and the rows of
    its particle. *)
Definition wire_record (r : ParticleSendData) (pos : Position)
    (vel : Velocity) : ParticleData :=
  mkParticleData (dest_gid r) (IPX pos) (IPY pos) (IPZ pos)
                 (IVX vel) (IVY vel) (IVZ vel).

(** Number of elements of a posted subview, and the requests posted to or
    from a given peer. *)
Definition count_of (r : PostedReq) : Z := data_end_of r - data_start_of r.

(** The request [q] stays within a buffer of [n] elements, and the byte
    count handed to MPI is an int that agrees with count * sizeof modulo
    2^32: it is that product when the product is an int, and another
    number otherwise. *)
Definition fits_buffer (sizeof n : Z) (q : PostedReq) : Prop :=
  0 ≤ data_start_of q ∧ data_start_of q ≤ data_end_of q ∧
  data_end_of q ≤ n ∧
  - 2 ^ 31 ≤ data_size_of q < 2 ^ 31 ∧
  (data_size_of q - count_of q * sizeof) `mod` 2 ^ 32 = 0 ∧
  (0 ≤ count_of q * sizeof < 2 ^ 31 →
   data_size_of q = count_of q * sizeof).

(** ** Vocabulary of the further statements *)

(** No two neighbours in the list are equal. *)
Definition adjacent_differ (l : list Z) : Prop :=
  ∀ i a b, l !! i = Some a → l !! S i = Some b → a ≠ b.

(** Triples ordered by sender, and by destination for one sender. *)
Definition by_sender_then_dest (t t' : ituple) : Prop :=
  get0 t < get0 t' ∨ (get0 t = get0 t' ∧ get1 t < get1 t').

(** ** The detector in binary64 *)

(** Modelled from the spec: the declaration of Real (athena.hpp) is not
    part of the sources at hand; the design document speaks of
    floating-point positions.  [B64] takes Real as the IEEE 754 binary64
    format of a C++ double: [<] and [>] are the comparisons of the format,
    false when an operand is not a number, and every sum and difference is
    rounded to the nearest value of the format.  The kernel of
    [SetNewPrtclGID] is transcribed a second time with this type; its
    integer part is the one above. *)
Module B64.
Import PrimFloat.

Abbreviation Real := float.

Record RegionSize := mkRegionSize {
  x1min : Real; x2min : Real; x3min : Real;
  x1max : Real; x2max : Real; x3max : Real
}.

Record Position := mkPosition { IPX : Real; IPY : Real; IPZ : Real }.

Record MeshData := mkMeshData {
  gids : Z;
  mb_size : Z -> RegionSize;
  mesh_size : RegionSize;
  my_rank : Z;
  nghbr : Z -> Z -> NeighborBlock
}.

Record PrtclState := mkPrtclState {
  prtcl_gid : list Z;
  prtcl_pos : list Position;
  sendlist_buf : list ParticleSendData;
  counter : Z
}.

Definition UpdateGID (nb : NeighborBlock) (myrank : Z) (p : nat)
    (s : PrtclState) : PrtclState :=
  let pgid' := <[p := gid nb]> (prtcl_gid s) in
  if bool_decide (rank nb ≠ myrank) then
    let index := counter s in
    mkPrtclState pgid' (prtcl_pos s)
      (<[Z.to_nat index := mkParticleSendData (Z.of_nat p) (gid nb) (rank nb)]>
         (sendlist_buf s))
      (index + 1)
  else
    mkPrtclState pgid' (prtcl_pos s) (sendlist_buf s) (counter s).

Definition resolve_slot (mb : RegionSize) (x1 x2 x3 : Real) : option Z :=
  if ltb x1 (x1min mb) then
    if ltb x2 (x2min mb) then
      if ltb x3 (x3min mb) then Some 48
      else if ltb (x3max mb) x3 then Some 52
      else Some 16
    else if ltb (x2max mb) x2 then
      if ltb x3 (x3min mb) then Some 50
      else if ltb (x3max mb) x3 then Some 54
      else Some 20
    else
      if ltb x3 (x3min mb) then Some 32
      else if ltb (x3max mb) x3 then Some 36
      else Some 0
  else if ltb (x1max mb) x1 then
    if ltb x2 (x2min mb) then
      if ltb x3 (x3min mb) then Some 49
      else if ltb (x3max mb) x3 then Some 53
      else Some 18
    else if ltb (x2max mb) x2 then
      if ltb x3 (x3min mb) then Some 51
      else if ltb (x3max mb) x3 then Some 55
      else Some 22
    else
      if ltb x3 (x3min mb) then Some 34
      else if ltb (x3max mb) x3 then Some 38
      else Some 4
  else
    if ltb x2 (x2min mb) then
      if ltb x3 (x3min mb) then Some 40
      else if ltb (x3max mb) x3 then Some 44
      else Some 8
    else if ltb (x2max mb) x2 then
      if ltb x3 (x3min mb) then Some 42
      else if ltb (x3max mb) x3 then Some 46
      else Some 12
    else
      if ltb x2 (x2min mb) then Some 24
      else if ltb (x3max mb) x3 then Some 28
      else None.

(** ppos(p,_) += (max - min) and ppos(p,_) -= (max - min): the width is
    rounded first, then the sum or the difference. *)
Definition periodic_reset (x lo hi : Real) : Real :=
  if ltb x lo then add x (sub hi lo)
  else if ltb hi x then sub x (sub hi lo)
  else x.

Definition pos_after (md : MeshData) (pos : Position) : Position :=
  let ms := mesh_size md in
  mkPosition (periodic_reset (IPX pos) (x1min ms) (x1max ms))
             (periodic_reset (IPY pos) (x2min ms) (x2max ms))
             (periodic_reset (IPZ pos) (x3min ms) (x3max ms)).

Definition SetNewPrtclGID_lane (md : MeshData) (p : nat) (s : PrtclState)
    : PrtclState :=
  match prtcl_gid s !! p, prtcl_pos s !! p with
  | Some g, Some pos =>
    let m := g - gids md in
    let x1 := IPX pos in
    let x2 := IPY pos in
    let x3 := IPZ pos in
    let s1 :=
      match resolve_slot (mb_size md m) x1 x2 x3 with
      | Some n => UpdateGID (nghbr md m n) (my_rank md) p s
      | None => s
      end in
    let ms := mesh_size md in
    let pos' := mkPosition (periodic_reset x1 (x1min ms) (x1max ms))
                           (periodic_reset x2 (x2min ms) (x2max ms))
                           (periodic_reset x3 (x3min ms) (x3max ms)) in
    mkPrtclState (prtcl_gid s1) (<[p := pos']> (prtcl_pos s1))
                 (sendlist_buf s1) (counter s1)
  | _, _ => s
  end.

Definition SetNewPrtclGID (md : MeshData) (sched : list nat)
    (pgid : list Z) (ppos : list Position) (psendl : list ParticleSendData)
    : PrtclState :=
  par_for (SetNewPrtclGID_lane md) sched (mkPrtclState pgid ppos psendl 0).

(** A region whose minimum does not exceed its maximum on any axis. *)
Definition well_formed (r : RegionSize) : Prop :=
  leb (x1min r) (x1max r) = true ∧ leb (x2min r) (x2max r) = true ∧
  leb (x3min r) (x3max r) = true.

(** What the reset does to one coordinate [x], giving [x']: the tests are
    those of the format and the results are rounded. *)
Definition wrapped (x x' lo hi : Real) : Prop :=
  (ltb hi x = true → x' = sub x (sub hi lo)) ∧
  (ltb x lo = true → x' = add x (sub hi lo)) ∧
  (∀ delta : Real, x = add hi delta → ltb hi x = true →
     x' = sub (add hi delta) (sub hi lo)).


(** A one-block periodic mesh with the extents [0.1, 0.7] on each axis, as
    binary64 has them, and a particle at x1 = 0.75, beyond the maximum by
    less than the width.  [x1_after] is the binary64 value next above
    0.15. *)
Module Tenths.
Definition lo : Real := 0x1.999999999999ap-4%float.
Definition hi : Real := 0x1.6666666666666p-1%float.
Definition block : RegionSize := mkRegionSize lo lo lo hi hi hi.
Definition md : MeshData :=
  mkMeshData 0 (λ _, block) block 0 (λ _ _, mkNeighborBlock 0 0 true).
Definition pos : Position := mkPosition 0.75%float 0.5%float 0.5%float.
Definition x1_after : Real := 0x1.3333333333334p-3%float.
End Tenths.

(** A one-block periodic mesh with the extents [-0.5, 1.7] on each axis and
    a particle whose x1 is the binary64 value next below -0.5.  [x1_after]
    is the value next above 1.7, the maximum of the mesh. *)
Module Ulp.
Definition lo : Real := (-0.5)%float.
Definition hi : Real := 0x1.b333333333333p+0%float.
Definition block : RegionSize := mkRegionSize lo lo lo hi hi hi.
Definition md : MeshData :=
  mkMeshData 0 (λ _, block) block 0 (λ _ _, mkNeighborBlock 0 0 true).
Definition pos : Position :=
  mkPosition (-0x1.0000000000001p-1)%float 0.5%float 0.5%float.
Definition x1_after : Real := 0x1.b333333333334p+0%float.
End Ulp.
End B64.

(** * Part II: properties *)

(** ** The lanes of the detector *)

Lemma departures_cons md p sched s :
  departures md (p :: sched) s
  = match departure_at md s p with
    | Some r => r :: departures md sched s
    | None => departures md sched s
    end.
Proof. done. Qed.

Section Lane.
Variable md : MeshData.

Lemma lane_out_of_range p s :
  prtcl_gid s !! p = None ∨ prtcl_pos s !! p = None →
  SetNewPrtclGID_lane md p s = s.
Proof.
  unfold SetNewPrtclGID_lane.
  intros [-> | ->]; [done|]. by destruct (prtcl_gid s !! p).
Qed.

Lemma lane_gid p s g pos :
  prtcl_gid s !! p = Some g → prtcl_pos s !! p = Some pos →
  prtcl_gid (SetNewPrtclGID_lane md p s)
  = <[p := gid_after md g pos]> (prtcl_gid s).
Proof.
  intros Hg Hp. unfold SetNewPrtclGID_lane, gid_after, resolved_nghbr.
  rewrite Hg, Hp. simpl.
  destruct (resolve_slot _ _ _ _) as [n|]; simpl.
  - unfold UpdateGID. by case_bool_decide.
  - symmetry. by apply list_insert_id.
Qed.

Lemma lane_pos p s g pos :
  prtcl_gid s !! p = Some g → prtcl_pos s !! p = Some pos →
  prtcl_pos (SetNewPrtclGID_lane md p s)
  = <[p := pos_after md pos]> (prtcl_pos s).
Proof.
  intros Hg Hp. unfold SetNewPrtclGID_lane, pos_after.
  rewrite Hg, Hp. simpl.
  destruct (resolve_slot _ _ _ _) as [n|]; simpl; [|done].
  unfold UpdateGID. by case_bool_decide.
Qed.

Lemma lane_counter p s :
  counter (SetNewPrtclGID_lane md p s)
  = counter s + (if departure_at md s p is Some _ then 1 else 0).
Proof.
  unfold SetNewPrtclGID_lane, departure_at, departure, resolved_nghbr.
  destruct (prtcl_gid s !! p) as [g|]; simpl; [|lia].
  destruct (prtcl_pos s !! p) as [pos|]; simpl; [|lia].
  destruct (resolve_slot _ _ _ _) as [n|]; simpl; [|lia].
  unfold UpdateGID. case_bool_decide; simpl; lia.
Qed.

Lemma lane_sendlist p s :
  sendlist_buf (SetNewPrtclGID_lane md p s)
  = match departure_at md s p with
    | Some r => <[Z.to_nat (counter s) := r]> (sendlist_buf s)
    | None => sendlist_buf s
    end.
Proof.
  unfold SetNewPrtclGID_lane, departure_at, departure, resolved_nghbr.
  destruct (prtcl_gid s !! p) as [g|]; simpl; [|done].
  destruct (prtcl_pos s !! p) as [pos|]; simpl; [|done].
  destruct (resolve_slot _ _ _ _) as [n|]; simpl; [|done].
  unfold UpdateGID. by case_bool_decide.
Qed.

(** A lane touches no row but its own. *)
Lemma lane_frame_gid p q s :
  p ≠ q →
  prtcl_gid (SetNewPrtclGID_lane md p s) !! q = prtcl_gid s !! q.
Proof.
  intros Hpq.
  destruct (prtcl_gid s !! p) as [g|] eqn:Hg;
    [destruct (prtcl_pos s !! p) as [pos|] eqn:Hp|].
  - rewrite (lane_gid _ _ _ _ Hg Hp). by apply list_lookup_insert_ne.
  - by rewrite lane_out_of_range by auto.
  - by rewrite lane_out_of_range by auto.
Qed.

Lemma lane_frame_pos p q s :
  p ≠ q →
  prtcl_pos (SetNewPrtclGID_lane md p s) !! q = prtcl_pos s !! q.
Proof.
  intros Hpq.
  destruct (prtcl_gid s !! p) as [g|] eqn:Hg;
    [destruct (prtcl_pos s !! p) as [pos|] eqn:Hp|].
  - rewrite (lane_pos _ _ _ _ Hg Hp). by apply list_lookup_insert_ne.
  - by rewrite lane_out_of_range by auto.
  - by rewrite lane_out_of_range by auto.
Qed.

Lemma lane_frame_departure p q s :
  p ≠ q →
  departure_at md (SetNewPrtclGID_lane md p s) q = departure_at md s q.
Proof.
  intros Hpq. unfold departure_at.
  by rewrite lane_frame_gid, lane_frame_pos.
Qed.

(** *** The whole [par_for] *)

Lemma par_for_cons p sched s :
  par_for (SetNewPrtclGID_lane md) (p :: sched) s
  = par_for (SetNewPrtclGID_lane md) sched (SetNewPrtclGID_lane md p s).
Proof. done. Qed.

Lemma par_for_frame_gid sched q s :
  q ∉ sched →
  prtcl_gid (par_for (SetNewPrtclGID_lane md) sched s) !! q
  = prtcl_gid s !! q.
Proof.
  revert s. induction sched as [|p sched IH]; intros s Hq; [done|].
  rewrite par_for_cons, IH by set_solver.
  apply lane_frame_gid. set_solver.
Qed.

Lemma par_for_frame_pos sched q s :
  q ∉ sched →
  prtcl_pos (par_for (SetNewPrtclGID_lane md) sched s) !! q
  = prtcl_pos s !! q.
Proof.
  revert s. induction sched as [|p sched IH]; intros s Hq; [done|].
  rewrite par_for_cons, IH by set_solver.
  apply lane_frame_pos. set_solver.
Qed.

(** Every scheduled particle ends with the block id and the position its
    own lane computes from the values it had at the start. *)
Lemma par_for_particle sched p s g pos :
  NoDup sched → p ∈ sched →
  prtcl_gid s !! p = Some g → prtcl_pos s !! p = Some pos →
  let s' := par_for (SetNewPrtclGID_lane md) sched s in
  prtcl_gid s' !! p = Some (gid_after md g pos) ∧
  prtcl_pos s' !! p = Some (pos_after md pos).
Proof.
  revert s. induction sched as [|q sched IH]; intros s Hnd Hin Hg Hp.
  { by apply elem_of_nil in Hin. }
  apply NoDup_cons in Hnd as [Hq Hnd]. simpl.
  destruct (decide (q = p)) as [->|Hne].
  - rewrite par_for_frame_gid, par_for_frame_pos by done.
    rewrite (lane_gid _ _ _ _ Hg Hp), (lane_pos _ _ _ _ Hg Hp).
    split; apply list_lookup_insert_eq; by eapply lookup_lt_Some.
  - apply elem_of_cons in Hin as [?|Hin]; [congruence|].
    apply IH; [done|done| |].
    + by rewrite lane_frame_gid.
    + by rewrite lane_frame_pos.
Qed.

Lemma departures_frame p sched s :
  p ∉ sched →
  departures md sched (SetNewPrtclGID_lane md p s) = departures md sched s.
Proof.
  induction sched as [|q sched IH]; intros Hp; [done|].
  apply not_elem_of_cons in Hp as [Hpq Hp].
  by rewrite !departures_cons, lane_frame_departure, IH.
Qed.

(** The counter ends at its start value plus the number of departures. *)
Lemma par_for_counter sched s :
  NoDup sched →
  counter (par_for (SetNewPrtclGID_lane md) sched s)
  = counter s + Z.of_nat (length (departures md sched s)).
Proof.
  revert s. induction sched as [|p sched IH]; intros s Hnd.
  { simpl. lia. }
  apply NoDup_cons in Hnd as [Hp Hnd].
  rewrite par_for_cons, IH, lane_counter, departures_frame by done.
  rewrite departures_cons.
  destruct (departure_at md s p); simpl; lia.
Qed.

(** The send list ends with the departures written at consecutive indices
    from the start value of the counter on. *)
Lemma par_for_sendlist sched s :
  NoDup sched → 0 ≤ counter s →
  sendlist_buf (par_for (SetNewPrtclGID_lane md) sched s)
  = store_at (Z.to_nat (counter s)) (departures md sched s)
             (sendlist_buf s).
Proof.
  revert s. induction sched as [|p sched IH]; intros s Hnd Hc; [done|].
  apply NoDup_cons in Hnd as [Hp Hnd].
  rewrite par_for_cons, IH, departures_frame by
    (try done; rewrite lane_counter; destruct (departure_at md s p); lia).
  rewrite lane_counter, lane_sendlist, departures_cons.
  destruct (departure_at md s p) as [r|]; simpl.
  - by replace (Z.to_nat (counter s + 1)) with (S (Z.to_nat (counter s)))
      by lia.
  - by rewrite Z.add_0_r.
Qed.
End Lane.

(** ** Stores at consecutive indices *)

Lemma store_at_length {A} i (recs buf : list A) :
  length (store_at i recs buf) = length buf.
Proof.
  revert i buf. induction recs as [|r recs IH]; intros i buf; [done|].
  simpl. by rewrite IH, length_insert.
Qed.

Lemma store_at_take_below {A} i (recs buf : list A) :
  take i (store_at i recs buf) = take i buf.
Proof.
  revert i buf. induction recs as [|r recs IH]; intros i buf; [done|].
  simpl. replace i with (min i (S i)) at 1 3 by lia.
  rewrite <-!take_take, IH, !take_take.
  replace (min i (S i)) with i by lia. by rewrite take_insert_ge by lia.
Qed.

(** With room for all of them, the records are found in the written range. *)
Lemma store_at_read {A} i (recs buf : list A) :
  (i + length recs ≤ length buf)%nat →
  take (length recs) (drop i (store_at i recs buf)) = recs.
Proof.
  revert i buf. induction recs as [|r recs IH]; intros i buf Hlen.
  { by rewrite take_0. }
  simpl in *.
  assert (Hi : store_at (S i) recs (<[i:=r]> buf) !! i = Some r).
  { rewrite <-(lookup_take_lt _ (S i)) by lia.
    rewrite store_at_take_below, lookup_take_lt by lia.
    apply list_lookup_insert_eq. lia. }
  rewrite (drop_S _ r i Hi). simpl. f_equal.
  apply IH. rewrite length_insert. lia.
Qed.

(** ** Range tests on coordinates *)

Ltac qc_order :=
  unfold Qclt, Qcle, Qcminus, Qcplus, Qcopp, Q2Qc in *; simpl in *;
  repeat rewrite Qred_correct in *; lra.

Lemma past_Lo_test x lo hi : past Lo x lo hi → bool_decide (x < lo)%Qc = true.
Proof. intros H. by apply bool_decide_eq_true. Qed.

Lemma past_Hi_test x lo hi :
  (lo ≤ hi)%Qc → past Hi x lo hi →
  bool_decide (x < lo)%Qc = false ∧ bool_decide (hi < x)%Qc = true.
Proof.
  simpl. intros Hwf H. split; [apply bool_decide_eq_false|
                               by apply bool_decide_eq_true].
  intros H'. qc_order.
Qed.

Lemma within_test x lo hi :
  within x lo hi →
  bool_decide (x < lo)%Qc = false ∧ bool_decide (hi < x)%Qc = false.
Proof.
  intros [H1 H2]. split; apply bool_decide_eq_false; intros H'; qc_order.
Qed.

(** Rewrites the range tests of the kernel with what is known of a
    coordinate. *)
Ltac settle_tests :=
  repeat match goal with
  | H : past Lo ?x ?lo ?hi |- _ =>
      rewrite ?(past_Lo_test x lo hi H); clear H
  | W : (?lo ≤ ?hi)%Qc, H : past Hi ?x ?lo ?hi |- _ =>
      destruct (past_Hi_test x lo hi W H) as [-> ->]; clear H
  | H : within ?x ?lo ?hi |- _ =>
      destruct (within_test x lo hi H) as [-> ->]; clear H
  end.

Lemma periodic_reset_within x lo hi :
  within x lo hi → periodic_reset x lo hi = x.
Proof. intros H. unfold periodic_reset. by settle_tests. Qed.

Lemma periodic_reset_below x lo hi :
  (x < lo)%Qc → periodic_reset x lo hi = (x + (hi - lo))%Qc.
Proof. intros H. unfold periodic_reset. by rewrite bool_decide_eq_true_2. Qed.

Lemma periodic_reset_above x lo hi :
  (lo ≤ hi)%Qc → (hi < x)%Qc → periodic_reset x lo hi = (x - (hi - lo))%Qc.
Proof.
  intros Hwf H. unfold periodic_reset.
  by destruct (past_Hi_test x lo hi Hwf H) as [-> ->].
Qed.

(** No resolution without a crossing. *)
Lemma resolve_slot_inside mb pos :
  inside mb pos → resolve_slot mb (IPX pos) (IPY pos) (IPZ pos) = None.
Proof. intros (H1 & H2 & H3). unfold resolve_slot. by settle_tests. Qed.

(** ** The detector as a whole *)

Lemma schedule_of_NoDup npart sched : schedule_of npart sched → NoDup sched.
Proof. intros H. rewrite H. apply NoDup_seq. Qed.

Lemma schedule_of_elem npart sched p :
  schedule_of npart sched → (p < npart)%nat → p ∈ sched.
Proof. intros H Hp. rewrite H. apply elem_of_seq. lia. Qed.

Lemma schedule_of_length npart sched :
  schedule_of npart sched → length sched = npart.
Proof. intros H. by rewrite H, length_seq. Qed.

(** After [SetNewPrtclGID], under any schedule, particle [p] holds the block
    id and the position computed by its own lane from its initial row. *)
Lemma SetNewPrtclGID_particle md npart sched pgid ppos psendl p g pos :
  schedule_of npart sched → (p < npart)%nat →
  pgid !! p = Some g → ppos !! p = Some pos →
  let s := SetNewPrtclGID md sched pgid ppos psendl in
  prtcl_gid s !! p = Some (gid_after md g pos) ∧
  prtcl_pos s !! p = Some (pos_after md pos).
Proof.
  intros Hs Hp Hg Hpos. unfold SetNewPrtclGID.
  apply par_for_particle; eauto using schedule_of_NoDup, schedule_of_elem.
Qed.

Lemma departures_length md sched s :
  (length (departures md sched s) ≤ length sched)%nat.
Proof.
  induction sched as [|p sched IH]; [done|]. rewrite departures_cons.
  destruct (departure_at md s p); simpl; lia.
Qed.

(** The counter returned as nprtcl_send is the number of departures, and
    the first nprtcl_send entries of the send list are the departures. *)
Lemma SetNewPrtclGID_sendlist md npart sched pgid ppos psendl :
  schedule_of npart sched → (npart ≤ length psendl)%nat →
  let s0 := mkPrtclState pgid ppos psendl 0 in
  let s := SetNewPrtclGID md sched pgid ppos psendl in
  counter s = Z.of_nat (length (departures md sched s0)) ∧
  sendlist_of (counter s) (sendlist_buf s) = departures md sched s0.
Proof.
  intros Hs Hcap s0 s. pose proof (schedule_of_NoDup _ _ Hs) as Hnd.
  assert (Hc : counter s = Z.of_nat (length (departures md sched s0))).
  { unfold s, SetNewPrtclGID. by rewrite par_for_counter. }
  split; [done|].
  unfold sendlist_of. rewrite Hc, Nat2Z.id.
  unfold s, SetNewPrtclGID. rewrite par_for_sendlist by done. simpl.
  pose proof (departures_length md sched s0) as Hlen.
  rewrite (schedule_of_length _ _ Hs) in Hlen.
  pose proof (store_at_read 0 (departures md sched s0) psendl) as Hrd.
  rewrite drop_0 in Hrd. apply Hrd. simpl. lia.
Qed.

Lemma departures_indx md sched s r :
  r ∈ departures md sched s →
  ∃ p g pos, p ∈ sched ∧ prtcl_gid s !! p = Some g ∧
             prtcl_pos s !! p = Some pos ∧ departure md p g pos = Some r.
Proof.
  unfold departures. rewrite list_elem_of_omap. intros (p & Hp & Hr).
  unfold departure_at in Hr.
  destruct (prtcl_gid s !! p) as [g|] eqn:Hg; [|done].
  destruct (prtcl_pos s !! p) as [pos|] eqn:Hpos; [|done].
  by exists p, g, pos.
Qed.

Lemma departure_indx md p g pos r :
  departure md p g pos = Some r → prtcl_indx r = Z.of_nat p.
Proof.
  unfold departure. destruct (resolved_nghbr md g pos) as [nb|]; [|done].
  simpl. case_bool_decide; [|done]. by intros [= <-].
Qed.

(** ** The kernel and the slot table *)

(** The kernel follows the numbering on every crossing pattern but one. *)
Lemma resolve_slot_by_table mb pos c1 c2 c3 :
  well_formed mb → stands mb pos c1 c2 c3 →
  (c1, c2, c3) ≠ (None, None, Some Lo) →
  resolve_slot mb (IPX pos) (IPY pos) (IPZ pos) = table_slot c1 c2 c3.
Proof.
  intros (W1 & W2 & W3) (H1 & H2 & H3) Hne. unfold resolve_slot.
  destruct c1 as [[]|], c2 as [[]|], c3 as [[]|]; unfold status in *;
    try done; by settle_tests.
Qed.

(** The remaining pattern: beyond the low x3 extent only.  The last test
    chain of the kernel repeats the x2 test, which has just failed, so no
    slot is resolved. *)
Lemma resolve_slot_low_x3_only mb pos :
  well_formed mb → stands mb pos None None (Some Lo) →
  resolve_slot mb (IPX pos) (IPY pos) (IPZ pos) = None.
Proof.
  intros (_ & _ & W3) (H1 & H2 & H3). unfold status, past in *.
  unfold resolve_slot.
  destruct (within_test _ _ _ H1) as [-> ->].
  destruct (within_test _ _ _ H2) as [-> ->].
  case_bool_decide; [exfalso; qc_order|done].
Qed.

Lemma slot_24_unreachable mb x1 x2 x3 : resolve_slot mb x1 x2 x3 ≠ Some 24.
Proof. unfold resolve_slot. repeat case_bool_decide; done. Qed.

Lemma not_face_edge d d' :
  ¬ is_face_slot (edge_x1x2_slot d d') ∧ ¬ is_face_slot (edge_x3x1_slot d d')
  ∧ ¬ is_face_slot (edge_x2x3_slot d d').
Proof.
  repeat split; intros (a & e & H); destruct d, d', a, e; discriminate.
Qed.

Lemma not_face_corner d1 d2 d3 : ¬ is_face_slot (corner_slot d1 d2 d3).
Proof. intros (a & e & H); destruct d1, d2, d3, a, e; discriminate. Qed.

(** [UpdateGID] stores the gid field of the entry whatever its other
    fields say. *)
Lemma UpdateGID_gid nb myrank p s :
  prtcl_gid (UpdateGID nb myrank p s) = <[p := gid nb]> (prtcl_gid s).
Proof. unfold UpdateGID. by case_bool_decide. Qed.

Lemma gid_after_resolved md g pos n :
  resolve_slot (mb_size md (g - gids md)) (IPX pos) (IPY pos) (IPZ pos)
  = Some n →
  gid_after md g pos = gid (nghbr md (g - gids md) n).
Proof. intros H. unfold gid_after, resolved_nghbr. by rewrite H. Qed.

Lemma gid_after_unresolved md g pos :
  resolve_slot (mb_size md (g - gids md)) (IPX pos) (IPY pos) (IPZ pos)
  = None →
  gid_after md g pos = g ∧ ∀ p, departure md p g pos = None.
Proof.
  intros H. unfold gid_after, departure, resolved_nghbr. by rewrite H.
Qed.

(** No particle is recorded twice in one run of the kernel. *)
Lemma departures_NoDup md sched s :
  NoDup sched → NoDup (prtcl_indx <$> departures md sched s).
Proof.
  induction sched as [|p sched IH]; intros Hnd; [constructor|].
  apply NoDup_cons in Hnd as [Hp Hnd]. rewrite departures_cons.
  destruct (departure_at md s p) as [r|] eqn:Hr; [|by apply IH].
  rewrite fmap_cons. apply NoDup_cons. split; [|by apply IH].
  intros Hin. apply list_elem_of_fmap in Hin as (r' & Heq & Hin).
  apply departures_indx in Hin as (q & g & pos & Hq & _ & _ & Hd).
  apply departure_indx in Hd.
  unfold departure_at in Hr.
  destruct (prtcl_gid s !! p) as [g'|]; [|done].
  destruct (prtcl_pos s !! p) as [pos'|]; [|done].
  apply departure_indx in Hr. simpl in Hr.
  assert (p = q) by lia. by subst.
Qed.

(** ** Particles that stay inside their block *)

(** C9: a particle within all six extents of its owning block keeps its
    block id, gets no record in the send list, and keeps its coordinate on
    every axis on which it is within the extents of the mesh. *)
Theorem C9_inside_particle_is_left_alone
    md npart sched pgid ppos psendl p g pos :
  schedule_of npart sched → (p < npart)%nat →
  (npart ≤ length psendl)%nat →
  pgid !! p = Some g → ppos !! p = Some pos →
  inside (mb_size md (g - gids md)) pos →
  let s := SetNewPrtclGID md sched pgid ppos psendl in
  let ms := mesh_size md in
  prtcl_gid s !! p = Some g ∧
  (∀ r, r ∈ sendlist_of (nprtcl_send_of s) (sendlist_buf s) →
        prtcl_indx r ≠ Z.of_nat p) ∧
  ∃ pos', prtcl_pos s !! p = Some pos' ∧
    (within (IPX pos) (x1min ms) (x1max ms) → IPX pos' = IPX pos) ∧
    (within (IPY pos) (x2min ms) (x2max ms) → IPY pos' = IPY pos) ∧
    (within (IPZ pos) (x3min ms) (x3max ms) → IPZ pos' = IPZ pos).
Proof.
  intros Hs Hp Hcap Hg Hpos Hin s ms.
  destruct (SetNewPrtclGID_particle md _ _ _ _ psendl _ _ _ Hs Hp Hg Hpos)
    as [Hg' Hpos'].
  pose proof (resolve_slot_inside _ _ Hin) as Hres.
  apply gid_after_unresolved in Hres as [Hgid Hdep].
  split; [|split].
  - fold s in Hg'. by rewrite Hg', Hgid.
  - intros r Hr.
    destruct (SetNewPrtclGID_sendlist md _ _ pgid ppos _ Hs Hcap) as [_ Hl].
    unfold nprtcl_send_of, s in Hr. rewrite Hl in Hr.
    apply departures_indx in Hr as (q & g' & pos' & _ & Hg2 & Hp2 & Hd).
    pose proof (departure_indx _ _ _ _ _ Hd) as Hi.
    intros Heq. assert (q = p) as -> by lia. simpl in *.
    rewrite Hg in Hg2. rewrite Hpos in Hp2.
    injection Hg2 as <-. injection Hp2 as <-.
    by rewrite Hdep in Hd.
  - exists (pos_after md pos). split; [done|].
    unfold pos_after. simpl. fold ms.
    repeat split; intros Hw; by apply periodic_reset_within.
Qed.

Lemma C9_witness :
  let s := SetNewPrtclGID Slab.md Slab.sched Slab.pgid Slab.ppos
                          Slab.psendl in
  let ms := mesh_size Slab.md in
  let pos := mkPosition (Slab.q 1 2) (Slab.q 1 2) (Slab.q 1 2) in
  prtcl_gid s !! 0%nat = Some 0 ∧
  (∀ r, r ∈ sendlist_of (nprtcl_send_of s) (sendlist_buf s) →
        prtcl_indx r ≠ Z.of_nat 0) ∧
  ∃ pos', prtcl_pos s !! 0%nat = Some pos' ∧
    (within (IPX pos) (x1min ms) (x1max ms) → IPX pos' = IPX pos) ∧
    (within (IPY pos) (x2min ms) (x2max ms) → IPY pos' = IPY pos) ∧
    (within (IPZ pos) (x3min ms) (x3max ms) → IPZ pos' = IPZ pos).
Proof.
  apply (C9_inside_particle_is_left_alone Slab.md 6 Slab.sched Slab.pgid
           Slab.ppos Slab.psendl 0 0
           (mkPosition (Slab.q 1 2) (Slab.q 1 2) (Slab.q 1 2))).
  - unfold schedule_of. reflexivity.
  - lia.
  - simpl. lia.
  - reflexivity.
  - reflexivity.
  - compute_done.
Defined.

(** ** The periodic reset *)

Lemma periodic_reset_wrapped x lo hi :
  (lo ≤ hi)%Qc → wrapped x (periodic_reset x lo hi) lo hi.
Proof.
  intros Hwf. repeat split.
  - by apply periodic_reset_above.
  - by apply periodic_reset_below.
  - intros delta Hd _ ->. rewrite periodic_reset_above; [ring|done|].
    qc_order.
Qed.

(** In exact arithmetic: whatever block the particle is in, whatever the
    neighbor table and the ranks are, each coordinate beyond the maximum of
    the mesh is decreased by the width of the mesh on that axis, each
    coordinate below the minimum is increased by it, and a coordinate at
    maximum + delta ends at minimum + delta. *)
Lemma SetNewPrtclGID_wrap_exact md npart sched pgid ppos psendl p g pos :
  schedule_of npart sched → (p < npart)%nat →
  pgid !! p = Some g → ppos !! p = Some pos →
  well_formed (mesh_size md) →
  let s := SetNewPrtclGID md sched pgid ppos psendl in
  let ms := mesh_size md in
  ∃ pos', prtcl_pos s !! p = Some pos' ∧
    wrapped (IPX pos) (IPX pos') (x1min ms) (x1max ms) ∧
    wrapped (IPY pos) (IPY pos') (x2min ms) (x2max ms) ∧
    wrapped (IPZ pos) (IPZ pos') (x3min ms) (x3max ms).
Proof.
  intros Hs Hp Hg Hpos (W1 & W2 & W3) s ms.
  destruct (SetNewPrtclGID_particle md _ _ _ _ psendl _ _ _ Hs Hp Hg Hpos)
    as [_ Hpos'].
  exists (pos_after md pos). split; [done|].
  unfold pos_after. simpl. fold ms.
  repeat split; by apply periodic_reset_wrapped.
Qed.

(** ** The periodic reset in binary64 *)

Section LaneB64.
Variable md : B64.MeshData.






End LaneB64.









(** ** Edge and corner crossings *)

Lemma filter_NoDup_fmap_le1 {A} (f : A → Z) (x : Z) (l : list A) :
  NoDup (f <$> l) → (length (filter (λ r, f r = x) l) ≤ 1)%nat.
Proof.
  induction l as [|a l IH]; intros Hnd; [simpl; lia|].
  rewrite fmap_cons in Hnd. apply NoDup_cons in Hnd as [Ha Hnd].
  rewrite filter_cons. case_decide as Hfa; [|by apply IH].
  destruct (filter (λ r, f r = x) l) as [|b t] eqn:Hf; [simpl; lia|].
  exfalso. assert (Hb : b ∈ filter (λ r, f r = x) l).
  { rewrite Hf. apply list_elem_of_here. }
  apply list_elem_of_filter in Hb as [Hfb Hb].
  apply Ha, list_elem_of_fmap. exists b. split; [congruence|done].
Qed.

Lemma table_slot_kind c1 c2 c3 n :
  table_slot c1 c2 c3 = Some n →
  (crossed c1 c2 c3 = 2%nat → is_edge_slot n ∧ ¬ is_face_slot n) ∧
  (crossed c1 c2 c3 = 3%nat → is_corner_slot n ∧ ¬ is_face_slot n).
Proof.
  destruct c1 as [d1|], c2 as [d2|], c3 as [d3|]; simpl;
    intros [= <-]; (split; intros Hc; vm_compute in Hc;
                    [try discriminate Hc..]).
  - split; [by exists d1, d2, d3|apply not_face_corner].
  - split; [exists d1, d2; auto|apply not_face_edge].
  - split; [exists d1, d3; auto|apply not_face_edge].
  - split; [exists d2, d3; auto|apply not_face_edge].
Qed.

(** C4: a particle beyond the extents of its block on two axes resolves to
    the edge slot of that axis pair and direction pair, beyond the extents
    on three axes to the corner slot of that octant (48 for low-low-low);
    the slot is never a face slot, the block id of the particle becomes the
    gid of that one entry, and the send list holds at most one record of
    the particle. *)
Theorem C4_edge_and_corner_crossings
    md npart sched pgid ppos psendl p g pos c1 c2 c3 :
  schedule_of npart sched → (p < npart)%nat →
  (npart ≤ length psendl)%nat →
  pgid !! p = Some g → ppos !! p = Some pos →
  well_formed (mb_size md (g - gids md)) →
  stands (mb_size md (g - gids md)) pos c1 c2 c3 →
  (2 ≤ crossed c1 c2 c3)%nat →
  let s := SetNewPrtclGID md sched pgid ppos psendl in
  ∃ n, resolve_slot (mb_size md (g - gids md)) (IPX pos) (IPY pos) (IPZ pos)
       = Some n ∧
       table_slot c1 c2 c3 = Some n ∧
       (crossed c1 c2 c3 = 2%nat → is_edge_slot n) ∧
       (crossed c1 c2 c3 = 3%nat → is_corner_slot n) ∧
       ¬ is_face_slot n ∧
       prtcl_gid s !! p = Some (gid (nghbr md (g - gids md) n)) ∧
       (length (filter (λ r, prtcl_indx r = Z.of_nat p)
                  (sendlist_of (nprtcl_send_of s) (sendlist_buf s)))
        ≤ 1)%nat ∧
       table_slot (Some Lo) (Some Lo) (Some Lo) = Some 48.
Proof.
  intros Hs Hp Hcap Hg Hpos Hwf Hst Hc s.
  assert (Hne : (c1, c2, c3) ≠ (None, None, Some Lo)).
  { intros [= -> -> ->]. vm_compute in Hc. lia. }
  pose proof (resolve_slot_by_table _ _ _ _ _ Hwf Hst Hne) as Hres.
  destruct (table_slot c1 c2 c3) as [n|] eqn:Ht.
  2:{ destruct c1, c2, c3; try discriminate Ht. vm_compute in Hc. lia. }
  exists n. destruct (table_slot_kind _ _ _ _ Ht) as [He Hco].
  split; [done|]. split; [done|].
  split; [intros H2; by apply He|]. split; [intros H3; by apply Hco|].
  split.
  { assert (crossed c1 c2 c3 = 2 ∨ crossed c1 c2 c3 = 3)%nat as [H2|H3].
    { destruct c1, c2, c3; vm_compute in Hc |- *; lia. }
    - by apply He. - by apply Hco. }
  split.
  { destruct (SetNewPrtclGID_particle md _ _ _ _ psendl _ _ _ Hs Hp Hg Hpos)
      as [Hg' _].
    fold s in Hg'. by rewrite Hg', (gid_after_resolved _ _ _ _ Hres). }
  split; [|done].
  destruct (SetNewPrtclGID_sendlist md _ _ pgid ppos _ Hs Hcap) as [_ Hl].
  unfold nprtcl_send_of, s. rewrite Hl.
  apply filter_NoDup_fmap_le1, departures_NoDup.
  by eapply schedule_of_NoDup.
Qed.

Lemma C4_witness :
  let s := SetNewPrtclGID Slab.md Slab.sched Slab.pgid Slab.ppos
                          Slab.psendl in
  let pos := mkPosition (Slab.q (-1) 10) (Slab.q (-1) 10) (Slab.q (-1) 10) in
  ∃ n, resolve_slot (mb_size Slab.md (0 - gids Slab.md))
                    (IPX pos) (IPY pos) (IPZ pos) = Some n ∧
       table_slot (Some Lo) (Some Lo) (Some Lo) = Some n ∧
       (crossed (Some Lo) (Some Lo) (Some Lo) = 2%nat → is_edge_slot n) ∧
       (crossed (Some Lo) (Some Lo) (Some Lo) = 3%nat → is_corner_slot n) ∧
       ¬ is_face_slot n ∧
       prtcl_gid s !! 5%nat = Some (gid (nghbr Slab.md (0 - gids Slab.md) n)) ∧
       (length (filter (λ r, prtcl_indx r = Z.of_nat 5)
                  (sendlist_of (nprtcl_send_of s) (sendlist_buf s)))
        ≤ 1)%nat ∧
       table_slot (Some Lo) (Some Lo) (Some Lo) = Some 48.
Proof.
  apply (C4_edge_and_corner_crossings Slab.md 6 Slab.sched Slab.pgid
           Slab.ppos Slab.psendl 5 0
           (mkPosition (Slab.q (-1) 10) (Slab.q (-1) 10) (Slab.q (-1) 10))
           (Some Lo) (Some Lo) (Some Lo)).
  - unfold schedule_of. reflexivity.
  - lia.
  - simpl. lia.
  - reflexivity.
  - reflexivity.
  - compute_done.
  - compute_done.
  - vm_compute. lia.
Defined.

(** ** Face crossings *)

(** Beyond one extent only, the kernel resolves the face slot of that axis
    and direction on five of the six faces. *)
Lemma face_crossing_resolved mb pos c1 c2 c3 :
  well_formed mb → stands mb pos c1 c2 c3 → crossed c1 c2 c3 = 1%nat →
  (c1, c2, c3) ≠ (None, None, Some Lo) →
  ∃ a d, table_slot c1 c2 c3 = Some (face_slot a d) ∧
         resolve_slot mb (IPX pos) (IPY pos) (IPZ pos)
         = Some (face_slot a d).
Proof.
  intros Hwf Hst Hc Hne.
  rewrite (resolve_slot_by_table _ _ _ _ _ Hwf Hst Hne).
  destruct c1 as [d1|], c2 as [d2|], c3 as [d3|]; vm_compute in Hc;
    try discriminate Hc; simpl;
    first [by exists X1, d1 | by exists X2, d2 | by exists X3, d3].
Qed.

(** C3, at a particle of block 0 past the low x3 face only (index 2 of the
    slab): the face slot for low x3 is 24 and its entry holds gid 1, yet the
    kernel resolves no slot and the particle keeps block id 0. *)
Theorem C3_low_x3_face_crossing_unresolved :
  let s := SetNewPrtclGID Slab.md Slab.sched Slab.pgid Slab.ppos
                          Slab.psendl in
  let pos := mkPosition (Slab.q 1 2) (Slab.q 1 2) (Slab.q (-1) 10) in
  Slab.ppos !! 2%nat = Some pos ∧ Slab.pgid !! 2%nat = Some 0 ∧
  stands Slab.block0 pos None None (Some Lo) ∧
  table_slot None None (Some Lo) = Some 24 ∧
  gid (nghbr Slab.md 0 24) = 1 ∧
  resolve_slot Slab.block0 (IPX pos) (IPY pos) (IPZ pos) = None ∧
  prtcl_gid s !! 2%nat = Some 0.
Proof. repeat split; compute_done. Qed.

(** ** Entries without a neighbor *)

(** C10, at the same particle on the mesh whose low x3 side is the edge of
    the domain: the particle crosses an extent of its block, the entry of
    the slot for that crossing holds the sentinel gid -1 and no neighbor,
    and the block id of the particle is not overwritten with it. *)
Theorem C10_low_x3_crossing_not_overwritten :
  let s := SetNewPrtclGID Slab.md_open Slab.sched Slab.pgid Slab.ppos
                          Slab.psendl in
  let pos := mkPosition (Slab.q 1 2) (Slab.q 1 2) (Slab.q (-1) 10) in
  Slab.ppos !! 2%nat = Some pos ∧ Slab.pgid !! 2%nat = Some 0 ∧
  past Lo (IPZ pos) (x3min Slab.block0) (x3max Slab.block0) ∧
  nghbr Slab.md_open 0 24 = mkNeighborBlock (-1) (-1) false ∧
  prtcl_gid s !! 2%nat = Some 0 ∧
  prtcl_gid s !! 2%nat ≠ Some (gid (nghbr Slab.md_open 0 24)).
Proof. repeat split; compute_done. Qed.

(** On every path that resolves a slot the overwrite is unconditional:
    the existence flag of the entry is never looked at. *)
Lemma resolved_gid_ignores_existence
    md npart sched pgid ppos psendl p g pos n :
  schedule_of npart sched → (p < npart)%nat →
  pgid !! p = Some g → ppos !! p = Some pos →
  resolve_slot (mb_size md (g - gids md)) (IPX pos) (IPY pos) (IPZ pos)
  = Some n →
  prtcl_gid (SetNewPrtclGID md sched pgid ppos psendl) !! p
  = Some (gid (nghbr md (g - gids md) n)).
Proof.
  intros Hs Hp Hg Hpos Hres.
  destruct (SetNewPrtclGID_particle md _ _ _ _ psendl _ _ _ Hs Hp Hg Hpos)
    as [Hg' _].
  by rewrite Hg', (gid_after_resolved _ _ _ _ Hres).
Qed.

(** The entry of an absent neighbor is stored like any other: particle 3 of
    the slab crosses the low x1 face, whose entry on the open mesh holds no
    neighbor, and ends with the sentinel as block id and a record bound for
    rank -1. *)
Example absent_neighbor_is_stored :
  let s := SetNewPrtclGID Slab.md_open Slab.sched Slab.pgid Slab.ppos
                          Slab.psendl in
  nghbr_exists (nghbr Slab.md_open 0 0) = false ∧
  prtcl_gid s !! 3%nat = Some (-1) ∧
  mkParticleSendData 3 (-1) (-1)
    ∈ sendlist_of (nprtcl_send_of s) (sendlist_buf s).
Proof. repeat split; compute_done. Qed.

(** ** The sort *)

Global Instance SortByRank_not_after_trans : Transitive (not_after SortByRank).
Proof.
  intros a b c. unfold not_after, SortByRank.
  rewrite !bool_decide_eq_false. lia.
Qed.

Global Instance SortByRank_not_after_total : Total (not_after SortByRank).
Proof.
  intros a b. unfold not_after, SortByRank.
  rewrite !bool_decide_eq_false. lia.
Qed.

Lemma not_after_SortByRank a b :
  not_after SortByRank a b ↔ dest_rank a ≤ dest_rank b.
Proof. unfold not_after, SortByRank. rewrite bool_decide_eq_false. lia. Qed.

Lemma std_sort_outcome (l : list ParticleSendData) :
  sort_outcome SortByRank l (std_sort SortByRank l).
Proof.
  split; [apply merge_sort_Permutation|].
  apply StronglySorted_merge_sort; apply _.
Qed.

(** ** The coalescing walk *)

Lemma sum_counts_from a ts :
  foldl (λ acc t, acc + get2 t) a ts = a + sum_counts ts.
Proof.
  unfold sum_counts. revert a. induction ts as [|t ts IH]; intros a.
  { simpl. lia. }
  simpl. rewrite (IH (a + get2 t)), (IH (0 + get2 t)). lia.
Qed.

Lemma sum_counts_cons t ts : sum_counts (t :: ts) = get2 t + sum_counts ts.
Proof. unfold sum_counts at 1. simpl. by rewrite sum_counts_from. Qed.

Lemma sum_counts_app ts us :
  sum_counts (ts ++ us) = sum_counts ts + sum_counts us.
Proof.
  induction ts as [|t ts IH]; [done|].
  rewrite <-app_comm_cons, !sum_counts_cons, IH. lia.
Qed.

Section Coalesce.
Variable myrank : Z.

(** The accumulated vector is only ever appended to. *)
Lemma load_sends_loop_acc rank nprtcl rest acc :
  load_sends_loop myrank rank nprtcl rest acc
  = acc ++ load_sends_loop myrank rank nprtcl rest [].
Proof.
  revert rank nprtcl acc.
  induction rest as [|x rest IH]; intros rank nprtcl acc; [done|].
  simpl. case_bool_decide; [apply IH|].
  rewrite IH, (IH _ _ [_]). by rewrite <-app_assoc.
Qed.

Lemma load_sends_loop_cons rank nprtcl x rest :
  load_sends_loop myrank rank nprtcl (x :: rest) []
  = if bool_decide (dest_rank x = rank)
    then load_sends_loop myrank rank (nprtcl + 1) rest []
    else (myrank, rank, nprtcl)
           :: load_sends_loop myrank (dest_rank x) 1 rest [].
Proof. simpl. case_bool_decide; [done|]. by rewrite load_sends_loop_acc. Qed.

Lemma load_sends_loop_sum rank nprtcl rest :
  sum_counts (load_sends_loop myrank rank nprtcl rest [])
  = nprtcl + Z.of_nat (length rest).
Proof.
  revert rank nprtcl. induction rest as [|x rest IH]; intros rank nprtcl.
  { simpl. unfold sum_counts, get2. simpl. lia. }
  rewrite load_sends_loop_cons. case_bool_decide.
  - rewrite IH. simpl. lia.
  - rewrite sum_counts_cons, IH. unfold get2. simpl. lia.
Qed.

Lemma load_sends_loop_fields rank nprtcl rest :
  0 < nprtcl →
  Forall (λ t, get0 t = myrank ∧ 0 < get2 t)
         (load_sends_loop myrank rank nprtcl rest []).
Proof.
  revert rank nprtcl. induction rest as [|x rest IH]; intros rank nprtcl Hn.
  { simpl. by repeat constructor. }
  rewrite load_sends_loop_cons. case_bool_decide.
  - apply IH. lia.
  - constructor; [done|]. apply IH. lia.
Qed.

(** Read as runs, the triples spell out the ranks that were walked. *)
Lemma load_sends_loop_runs rank nprtcl rest :
  0 ≤ nprtcl →
  runs_of (load_sends_loop myrank rank nprtcl rest [])
  = replicate (Z.to_nat nprtcl) rank ++ ranks rest.
Proof.
  revert rank nprtcl. induction rest as [|x rest IH]; intros rank nprtcl Hn.
  { unfold runs_of. simpl. by rewrite !app_nil_r. }
  rewrite load_sends_loop_cons. case_bool_decide as Hx.
  - rewrite IH by lia.
    replace (Z.to_nat (nprtcl + 1)) with (Z.to_nat nprtcl + 1)%nat by lia.
    rewrite replicate_add, <-app_assoc. simpl. by rewrite Hx.
  - unfold runs_of in *. rewrite bind_cons, IH by lia. done.
Qed.

(** On a walk through non-decreasing ranks every new triple has a larger
    rank than the one before. *)
Lemma load_sends_loop_increasing rank nprtcl rest :
  StronglySorted Z.le (rank :: ranks rest) →
  ∃ tl, get1 <$> load_sends_loop myrank rank nprtcl rest [] = rank :: tl
        ∧ StronglySorted Z.lt (rank :: tl).
Proof.
  revert rank nprtcl. induction rest as [|x rest IH]; intros rank nprtcl Hs.
  { exists []. split; [done|]. repeat constructor. }
  rewrite load_sends_loop_cons.
  apply StronglySorted_inv in Hs as [Hs Hall].
  unfold ranks in Hs, Hall. rewrite fmap_cons in Hs, Hall.
  case_bool_decide as Hx.
  - apply IH. subst rank. done.
  - destruct (IH (dest_rank x) 1 Hs) as (tl & Heq & Htl).
    exists (dest_rank x :: tl). split; [by rewrite fmap_cons, Heq|].
    apply Forall_cons in Hall as [Hle _].
    constructor; [done|].
    apply StronglySorted_inv in Htl as [_ Htl].
    constructor; [lia|]. eapply Forall_impl; [exact Htl|].
    simpl. intros. lia.
Qed.

Lemma load_sends_sum sendlist :
  sum_counts (load_sends myrank sendlist) = Z.of_nat (length sendlist).
Proof.
  destruct sendlist as [|r0 rest]; [done|].
  simpl. rewrite load_sends_loop_sum. lia.
Qed.

Lemma load_sends_fields sendlist :
  Forall (λ t, get0 t = myrank ∧ 0 < get2 t) (load_sends myrank sendlist).
Proof.
  destruct sendlist as [|r0 rest]; [constructor|].
  by apply load_sends_loop_fields.
Qed.

Lemma load_sends_runs sendlist :
  runs_of (load_sends myrank sendlist) = ranks sendlist.
Proof.
  destruct sendlist as [|r0 rest]; [done|].
  simpl. by rewrite load_sends_loop_runs.
Qed.

Lemma load_sends_increasing sendlist :
  StronglySorted (not_after SortByRank) sendlist →
  StronglySorted Z.lt (get1 <$> load_sends myrank sendlist).
Proof.
  intros Hs. destruct sendlist as [|r0 rest]; [constructor|].
  simpl. destruct (load_sends_loop_increasing (dest_rank r0) 1 rest)
    as (tl & -> & Htl); [|done].
  change (StronglySorted Z.le (ranks (r0 :: rest))).
  unfold ranks. clear -Hs. induction Hs as [|a l Hs IH Hall]; [constructor|].
  rewrite fmap_cons. constructor; [done|].
  apply Forall_fmap. eapply Forall_impl; [exact Hall|].
  intros b. apply not_after_SortByRank.
Qed.
End Coalesce.

(** ** The walk over a sorted send list *)

Lemma StronglySorted_lookup {A} (R : relation A) l i j a b :
  StronglySorted R l → (i < j)%nat →
  l !! i = Some a → l !! j = Some b → R a b.
Proof.
  intros Hs. revert i j. induction Hs as [|x l Hs IH Hall]; intros i j Hij.
  { by rewrite lookup_nil. }
  destruct j as [|j]; [lia|]. destruct i as [|i]; simpl.
  - intros [= <-] Hb. rewrite Forall_forall in Hall.
    apply Hall. by eapply list_elem_of_lookup_2.
  - apply IH. lia.
Qed.

Lemma StronglySorted_NoDup_lt (l : list Z) : StronglySorted Z.lt l → NoDup l.
Proof.
  induction 1 as [|x l Hs IH Hall]; [constructor|].
  apply NoDup_cons. split; [|done].
  intros Hx. rewrite Forall_forall in Hall. specialize (Hall x Hx). lia.
Qed.

Lemma sorted_ranks_contiguous sorted :
  StronglySorted (not_after SortByRank) sorted → contiguous_ranks sorted.
Proof.
  intros Hs i j k a b c Hij Hjk Ha Hb Hc Hac.
  assert (dest_rank a ≤ dest_rank b).
  { destruct (decide (i = j)) as [->|]; [rewrite Ha in Hb; by injection Hb as ->|].
    apply not_after_SortByRank.
    eapply (StronglySorted_lookup _ sorted i j); eauto. lia. }
  assert (dest_rank b ≤ dest_rank c).
  { destruct (decide (j = k)) as [->|]; [rewrite Hb in Hc; by injection Hc as ->|].
    apply not_after_SortByRank.
    eapply (StronglySorted_lookup _ sorted j k); eauto. lia. }
  lia.
Qed.

Lemma runs_of_cons t ts :
  runs_of (t :: ts) = replicate (Z.to_nat (get2 t)) (get1 t) ++ runs_of ts.
Proof. done. Qed.

Lemma elem_of_runs_of x ts :
  x ∈ runs_of ts → ∃ t, t ∈ ts ∧ get1 t = x.
Proof.
  unfold runs_of. rewrite list_elem_of_bind. intros (t & Hx & Ht).
  apply elem_of_replicate in Hx as [-> _]. by exists t.
Qed.

Lemma runs_of_elem t ts :
  t ∈ ts → 0 < get2 t → get1 t ∈ runs_of ts.
Proof.
  intros Ht Hpos. unfold runs_of. rewrite list_elem_of_bind.
  exists t. split; [|done]. apply elem_of_replicate. split; [done|lia].
Qed.

Lemma filter_replicate_eq (x : Z) n :
  filter (λ y, y = x) (replicate n x) = replicate n x.
Proof.
  induction n as [|n IH]; [done|]. simpl.
  rewrite filter_cons_True by done. by rewrite IH.
Qed.

Lemma filter_absent (x : Z) l : x ∉ l → filter (λ y, y = x) l = [].
Proof.
  intros Hx. induction l as [|y l IH]; [done|].
  apply not_elem_of_cons in Hx as [Hne Hx].
  rewrite filter_cons_False by congruence. by apply IH.
Qed.

(** With pairwise distinct ranks in the triples, the count of a triple is
    the number of occurrences of its rank in the sequence of runs. *)
Lemma runs_of_count ts t :
  StronglySorted Z.lt (get1 <$> ts) → t ∈ ts →
  length (filter (λ y, y = get1 t) (runs_of ts)) = Z.to_nat (get2 t).
Proof.
  induction ts as [|u ts IH]; intros Hs Ht; [by apply elem_of_nil in Ht|].
  rewrite fmap_cons in Hs. apply StronglySorted_inv in Hs as [Hs Hall].
  rewrite Forall_fmap, Forall_forall in Hall.
  rewrite runs_of_cons, filter_app, length_app.
  apply elem_of_cons in Ht as [->|Ht].
  - rewrite filter_replicate_eq, length_replicate.
    rewrite filter_absent; [simpl; lia|].
    intros Hin. apply elem_of_runs_of in Hin as (t' & Ht' & Heq).
    specialize (Hall t' Ht'). simpl in Hall. lia.
  - rewrite filter_absent, IH by
      (try done; intros Hin; apply elem_of_replicate in Hin as [Heq _];
       specialize (Hall t Ht); simpl in Hall; lia).
    done.
Qed.

Lemma filter_ranks (x : Z) l :
  length (filter (λ y, y = x) (ranks l))
  = length (filter (λ r, dest_rank r = x) l).
Proof.
  induction l as [|r l IH]; [done|].
  unfold ranks in *. rewrite fmap_cons.
  destruct (decide (dest_rank r = x)) as [Hx|Hx].
  - rewrite !filter_cons_True by done. simpl. by rewrite IH.
  - by rewrite !filter_cons_False by done.
Qed.

(** What the coalescing walk yields on any outcome of the sort. *)
Lemma load_sends_of_sorted myrank l sorted :
  sort_outcome SortByRank l sorted →
  let sends := load_sends myrank sorted in
  contiguous_ranks sorted ∧
  length sends = length (remove_dups (ranks l)) ∧
  StronglySorted Z.lt (get1 <$> sends) ∧
  runs_of sends = ranks sorted ∧
  (∀ t, t ∈ sends →
     get0 t = myrank ∧ get1 t ∈ ranks l ∧
     get2 t = Z.of_nat (length (filter (λ r, dest_rank r = get1 t) l))).
Proof.
  intros [Hperm Hs] sends.
  pose proof (load_sends_increasing myrank sorted Hs) as Hinc.
  pose proof (load_sends_runs myrank sorted) as Hruns.
  pose proof (load_sends_fields myrank sorted) as Hf.
  rewrite Forall_forall in Hf. fold sends in Hinc, Hruns, Hf.
  assert (Hranks : ranks sorted ≡ₚ ranks l) by (unfold ranks; by rewrite Hperm).
  split; [by apply sorted_ranks_contiguous|].
  split.
  { rewrite <-(length_fmap get1 sends). apply Permutation_length.
    apply NoDup_Permutation.
    - eapply StronglySorted_NoDup_lt, Hinc.
    - apply NoDup_remove_dups.
    - intros x. rewrite elem_of_remove_dups, <-Hranks, <-Hruns. split.
      + intros Hx. apply list_elem_of_fmap in Hx as (t & -> & Ht).
        apply runs_of_elem; [done|]. by apply Hf.
      + intros Hx. apply elem_of_runs_of in Hx as (t & Ht & <-).
        apply list_elem_of_fmap. by exists t. }
  split; [done|]. split; [done|].
  intros t Ht. destruct (Hf t Ht) as [H0 Hpos].
  split; [done|]. split.
  - rewrite <-Hranks, <-Hruns. by apply runs_of_elem.
  - rewrite <-filter_ranks, <-Hranks, <-Hruns, runs_of_count by done. lia.
Qed.

(** C7: for every departure list [l], the sorted list is a rearrangement of
    [l] in which equal destination ranks are contiguous; the walk yields as
    many triples as there are distinct destination ranks in [l]; the
    triples, read as runs, spell out the sorted rank sequence, each with the
    local rank as source, a rank of [l] as destination and the number of
    records of [l] bound for that rank as count; and an empty departure
    list yields no triple. *)
Theorem C7_sorted_runs_become_triples myrank (l : list ParticleSendData) :
  let sorted := std_sort SortByRank l in
  let sends := load_sends myrank sorted in
  sorted ≡ₚ l ∧
  contiguous_ranks sorted ∧
  length sends = length (remove_dups (ranks l)) ∧
  StronglySorted Z.lt (get1 <$> sends) ∧
  runs_of sends = ranks sorted ∧
  (∀ t, t ∈ sends →
     get0 t = myrank ∧ get1 t ∈ ranks l ∧
     get2 t = Z.of_nat (length (filter (λ r, dest_rank r = get1 t) l))) ∧
  load_sends myrank (std_sort SortByRank []) = [] ∧
  (∀ buf, CountSends myrank 0 buf = []).
Proof.
  intros sorted sends.
  pose proof (std_sort_outcome l) as Hout.
  destruct (load_sends_of_sorted myrank l _ Hout) as (H1 & H2 & H3 & H4 & H5).
  destruct Hout as [Hperm _].
  repeat (split; [done|]).
  intros buf. unfold CountSends, sendlist_of.
  change (Z.to_nat 0) with 0%nat. by rewrite take_0.
Qed.

(** ** The counter and the counts *)

Lemma off_rank_spec md pgid ppos p :
  off_rank md pgid ppos p ↔
  ∃ g pos n, pgid !! p = Some g ∧ ppos !! p = Some pos ∧
    resolve_slot (mb_size md (g - gids md)) (IPX pos) (IPY pos) (IPZ pos)
    = Some n ∧
    rank (nghbr md (g - gids md) n) ≠ my_rank md.
Proof.
  unfold off_rank, departure_at, departure, resolved_nghbr. simpl.
  destruct (pgid !! p) as [g|]; simpl.
  2:{ split; [by intros [? ?]|by intros (? & ? & ? & ? & _)]. }
  destruct (ppos !! p) as [pos|]; simpl.
  2:{ split; [by intros [? ?]|by intros (? & ? & ? & _ & ? & _)]. }
  destruct (resolve_slot _ _ _ _) as [n|] eqn:Hn; simpl.
  2:{ split; [by intros [? ?]|].
      intros (g' & pos' & n & [= <-] & [= <-] & Hres & _). congruence. }
  case_bool_decide as Hr.
  - split; [|by eauto]. intros _. by exists g, pos, n.
  - split; [by intros [? ?]|].
    intros (g' & pos' & n' & [= <-] & [= <-] & Hres & Hne).
    rewrite Hn in Hres. by injection Hres as <-.
Qed.

Lemma departures_count md sched pgid ppos psendl c :
  length (departures md sched (mkPrtclState pgid ppos psendl c))
  = length (filter (off_rank md pgid ppos) sched).
Proof.
  induction sched as [|p sched IH]; [done|].
  rewrite departures_cons, filter_cons.
  change (departure_at md (mkPrtclState pgid ppos psendl c) p)
    with (departure_at md (mkPrtclState pgid ppos [] 0) p).
  destruct (decide (off_rank md pgid ppos p)) as [Ho|Ho]; unfold off_rank in Ho.
  - destruct Ho as [r Hr]. rewrite Hr. simpl. by rewrite IH.
  - destruct (departure_at md _ p) as [r|]; [|done].
    exfalso. apply Ho. by exists r.
Qed.

Section Counts.
Variable sizeof_ParticleData : Z.

(** C6: the counter returned by the detector is the number of particles
    whose resolved neighbor lives on another rank, it is the sum of the
    counts of the triples built from the sorted send list, and it is the
    value PackAndSendPrtcls recomputes from the triples. *)
Theorem C6_counter_equals_sum_of_counts md npart sched pgid ppos psendl :
  schedule_of npart sched → (npart ≤ length psendl)%nat →
  let s := SetNewPrtclGID md sched pgid ppos psendl in
  let sends :=
    CountSends (my_rank md) (nprtcl_send_of s) (sendlist_buf s) in
  nprtcl_send_of s
  = Z.of_nat (length (filter (off_rank md pgid ppos) (seq 0 npart))) ∧
  sum_counts sends = nprtcl_send_of s ∧
  nprtcl_send_recomputed (PackAndSendPrtcls sizeof_ParticleData sends)
  = nprtcl_send_of s.
Proof.
  intros Hs Hcap s sends.
  destruct (SetNewPrtclGID_sendlist md _ _ pgid ppos _ Hs Hcap) as [Hc Hl].
  fold s in Hc, Hl.
  assert (Hsum : sum_counts sends = nprtcl_send_of s).
  { unfold sends, CountSends, nprtcl_send_of.
    rewrite load_sends_sum, Hl.
    unfold std_sort. by rewrite merge_sort_Permutation, Hc. }
  split; [|split; [done|]].
  - unfold nprtcl_send_of. rewrite Hc, departures_count.
    unfold schedule_of in Hs. by rewrite Hs.
  - unfold PackAndSendPrtcls. by case_bool_decide.
Qed.
End Counts.

Lemma C6_witness :
  let s := SetNewPrtclGID Slab.md Slab.sched Slab.pgid Slab.ppos
                          Slab.psendl in
  let sends :=
    CountSends (my_rank Slab.md) (nprtcl_send_of s) (sendlist_buf s) in
  nprtcl_send_of s
  = Z.of_nat (length (filter (off_rank Slab.md Slab.pgid Slab.ppos)
                             (seq 0 6))) ∧
  sum_counts sends = nprtcl_send_of s ∧
  nprtcl_send_recomputed (PackAndSendPrtcls 56 sends) = nprtcl_send_of s.
Proof.
  apply (C6_counter_equals_sum_of_counts 56 Slab.md 6 Slab.sched Slab.pgid
           Slab.ppos Slab.psendl).
  - unfold schedule_of. reflexivity.
  - simpl. lia.
Defined.

(** ** The rendezvous *)

Lemma store_at_app {A} (done xs rest : list A) :
  (length xs ≤ length rest)%nat →
  store_at (length done) xs (done ++ rest)
  = done ++ xs ++ drop (length xs) rest.
Proof.
  revert done rest. induction xs as [|x xs IH]; intros done rest Hlen.
  { by rewrite drop_0. }
  destruct rest as [|y rest]; simpl in Hlen; [lia|]. simpl.
  rewrite insert_app_r_alt, Nat.sub_diag by lia. simpl.
  replace (S (length done)) with (length (done ++ [x]))
    by (rewrite length_app; simpl; lia).
  rewrite (cons_middle x done rest), app_assoc, IH by lia.
  by rewrite <-app_assoc.
Qed.

Lemma displ_from_last acc c counts :
  default 0 (last (displ_from acc (c :: counts)))
  + default 0 (last (c :: counts))
  = acc + Zsum (c :: counts).
Proof.
  revert acc c. induction counts as [|c' counts IH]; intros acc c.
  { simpl. lia. }
  change (displ_from acc (c :: c' :: counts))
    with (acc :: (acc + c) :: displ_from (acc + c + c') counts).
  rewrite !last_cons_cons.
  change ((acc + c) :: displ_from (acc + c + c') counts)
    with (displ_from (acc + c) (c' :: counts)).
  rewrite IH. simpl. lia.
Qed.

Lemma nsends_allranks_of_sum counts :
  nsends_allranks_of counts = Zsum counts.
Proof.
  destruct counts as [|c counts]; [done|].
  unfold nsends_allranks_of, nsends_displ. rewrite displ_from_last. lia.
Qed.

Lemma Zsum_lengths {A} (ls : list (list A)) :
  Zsum ((λ s, Z.of_nat (length s)) <$> ls) = Z.of_nat (length (concat ls)).
Proof.
  induction ls as [|l ls IH]; [done|].
  rewrite fmap_cons. unfold Zsum in *. simpl. rewrite length_app, IH. lia.
Qed.

Lemma MPI_Allgatherv_tiles {A} (contribs : list (list A)) (done rest : list A) :
  length rest = length (concat contribs) →
  MPI_Allgatherv contribs
    (displ_from (Z.of_nat (length done))
                ((λ s, Z.of_nat (length s)) <$> contribs))
    (done ++ rest)
  = done ++ concat contribs.
Proof.
  unfold MPI_Allgatherv. revert done rest.
  induction contribs as [|c cs IH]; intros done rest Hlen.
  { simpl in *. by destruct rest. }
  rewrite fmap_cons. simpl in *. rewrite length_app in Hlen.
  rewrite Nat2Z.id, store_at_app by lia.
  rewrite app_assoc.
  replace (Z.of_nat (length done) + Z.of_nat (length c))
    with (Z.of_nat (length (done ++ c))) by (rewrite length_app; lia).
  rewrite IH; [by rewrite <-app_assoc|].
  rewrite length_drop. lia.
Qed.

(** After the rendezvous every rank holds the triple lists of all ranks,
    one after the other in rank order, whatever its vector held before. *)
Lemma gather_sends_concat sends_eachrank old :
  gather_sends sends_eachrank old = concat sends_eachrank.
Proof.
  unfold gather_sends, nsends_displ.
  rewrite nsends_allranks_of_sum, Zsum_lengths, Nat2Z.id.
  apply (MPI_Allgatherv_tiles sends_eachrank []).
  by rewrite length_resize.
Qed.

(** ** Inbound and outbound totals *)

Lemma load_recvs_filter myrank sends_allranks acc :
  load_recvs myrank sends_allranks acc
  = acc ++ filter (λ t, get1 t = myrank) sends_allranks.
Proof.
  revert acc. induction sends_allranks as [|t rest IH]; intros acc.
  { simpl. by rewrite app_nil_r. }
  simpl. rewrite filter_cons. case_bool_decide.
  - rewrite decide_True, IH by done. by rewrite <-app_assoc.
  - by rewrite decide_False, IH by done.
Qed.

Lemma Zsum_cons x l : Zsum (x :: l) = x + Zsum l.
Proof. done. Qed.

Lemma Zsum_seq_add (f g : nat → Z) (ns : list nat) :
  Zsum ((λ r, f r + g r) <$> ns) = Zsum (f <$> ns) + Zsum (g <$> ns).
Proof.
  induction ns as [|n ns IH]; [done|].
  rewrite !fmap_cons, !Zsum_cons, IH. lia.
Qed.

Lemma Zsum_seq_zero (ns : list nat) : Zsum ((λ _, 0) <$> ns) = 0.
Proof.
  induction ns as [|n ns IH]; [done|]. by rewrite fmap_cons, Zsum_cons, IH.
Qed.

(** A count bound for a valid rank is counted by exactly one rank. *)
Lemma Zsum_one_receiver (dest c : Z) (start n : nat) :
  Z.of_nat start ≤ dest < Z.of_nat (start + n) →
  Zsum ((λ r : nat, if decide (dest = Z.of_nat r) then c else 0)
          <$> seq start n) = c.
Proof.
  revert start. induction n as [|n IH]; intros start Hd; [lia|].
  rewrite <-cons_seq, fmap_cons, Zsum_cons. case_decide as Heq.
  - assert (Zsum ((λ r : nat, if decide (dest = Z.of_nat r) then c else 0)
                    <$> seq (S start) n) = 0) as ->; [|lia].
    clear IH. assert (Hlt : dest < Z.of_nat (S start)) by lia.
    revert Hlt. generalize (S start). clear.
    induction n as [|n IH]; intros k Hk; [done|].
    rewrite <-cons_seq, fmap_cons, Zsum_cons, decide_False, IH by lia. done.
  - rewrite IH by lia. lia.
Qed.

Lemma inbound_sum_total (nranks : nat) (sends_allranks : list ituple) :
  Forall (λ t, 0 ≤ get1 t < Z.of_nat nranks) sends_allranks →
  Zsum ((λ r : nat, sum_counts
           (filter (λ t, get1 t = Z.of_nat r) sends_allranks))
          <$> seq 0 nranks)
  = sum_counts sends_allranks.
Proof.
  induction 1 as [|t rest Ht Hall IH]; [apply Zsum_seq_zero|].
  rewrite sum_counts_cons, <-IH.
  rewrite <-(Zsum_one_receiver (get1 t) (get2 t) 0 nranks) at 1 by (simpl; lia).
  rewrite <-Zsum_seq_add. f_equal. apply list_fmap_ext. intros _ r _.
  rewrite filter_cons. case_decide; [by rewrite sum_counts_cons|lia].
Qed.

Lemma Zsum_sum_counts (tss : list (list ituple)) :
  Zsum (sum_counts <$> tss) = sum_counts (concat tss).
Proof.
  induction tss as [|ts tss IH]; [done|].
  rewrite fmap_cons. unfold Zsum in *. simpl. by rewrite sum_counts_app, IH.
Qed.

Lemma elem_of_concat {A} (x : A) (ls : list (list A)) :
  x ∈ concat ls ↔ ∃ l, l ∈ ls ∧ x ∈ l.
Proof.
  rewrite list_elem_of_In, in_concat. split.
  - intros (l & Hl & Hx). exists l. by rewrite !list_elem_of_In.
  - intros (l & Hl & Hx). exists l. by rewrite <-!list_elem_of_In.
Qed.

Lemma sends_eachrank_of_valid (nranks : nat) sendlists :
  Forall (Forall (λ r, 0 ≤ dest_rank r < Z.of_nat nranks)) sendlists →
  Forall (λ t, 0 ≤ get1 t < Z.of_nat nranks)
         (concat (sends_eachrank_of sendlists)).
Proof.
  intros Hv. apply Forall_forall. intros t Ht.
  apply elem_of_concat in Ht as (ts & Hts & Ht).
  apply elem_of_lookup_imap_1 in Hts as (r & l & -> & Hl).
  destruct (load_sends_of_sorted (Z.of_nat r) l _ (std_sort_outcome l))
    as (_ & _ & _ & _ & Hf).
  destruct (Hf t Ht) as (_ & Hin & _).
  apply list_elem_of_fmap in Hin as (rec & -> & Hrec).
  rewrite Forall_forall in Hv.
  assert (Hl' : l ∈ sendlists) by (by eapply list_elem_of_lookup_2).
  specialize (Hv l Hl'). rewrite Forall_forall in Hv. by apply Hv.
Qed.

Lemma concat_imap_nil {A B} (f : nat → list A → list B) ls :
  (∀ i, f i [] = []) → Forall (λ l, l = []) ls → concat (imap f ls) = [].
Proof.
  intros Hf He. revert f Hf.
  induction He as [|l ls -> _ IH]; intros f Hf; [done|].
  rewrite imap_cons. simpl. rewrite Hf. simpl. apply IH.
  intros i. apply Hf.
Qed.

Lemma sends_eachrank_of_empty sendlists r :
  Forall (λ l, l = []) sendlists → (r < length sendlists)%nat →
  sends_eachrank_of sendlists !! r = Some [] ∧
  concat (sends_eachrank_of sendlists) = [].
Proof.
  intros He Hr. split.
  - unfold sends_eachrank_of. rewrite list_lookup_imap.
    destruct (lookup_lt_is_Some_2 sendlists r Hr) as [l Hl].
    rewrite Hl. simpl. rewrite Forall_forall in He.
    by rewrite (He l) by (by eapply list_elem_of_lookup_2).
  - by apply concat_imap_nil.
Qed.

Section Exchange.
Variable sizeof_ParticleData : Z.

(** C5, for departures bound for ranks of the run: with at least one rank
    and 0 <= dest_rank < number of ranks in every record, the outbound counts
    of all ranks add up to the inbound counts all ranks compute for
    themselves from the gathered triples; and when no rank has a
    departure, every triple list is empty, every rank gathers nothing,
    expects nothing, posts no receive and no send, waits for no request,
    and its tasks return. *)
Theorem C5_outbound_total_equals_inbound_total
    (sendlists : list (list ParticleSendData)) (old : nat → list ituple) :
  (1 ≤ length sendlists)%nat →
  Forall (Forall (λ r, 0 ≤ dest_rank r < Z.of_nat (length sendlists)))
         sendlists →
  total_outbound sendlists = total_inbound sizeof_ParticleData sendlists old ∧
  (Forall (λ l, l = []) sendlists →
   ∀ mpi_success r, (r < length sendlists)%nat →
     quiet_step sizeof_ParticleData sendlists old mpi_success r).
Proof.
  intros Hn Hv. split.
  - unfold total_outbound, total_inbound, recv_side.
    rewrite Zsum_sum_counts.
    rewrite <-(inbound_sum_total (length sendlists))
      by (by apply sends_eachrank_of_valid).
    f_equal. apply list_fmap_ext. intros _ r _.
    unfold InitPrtclRecv. simpl.
    by rewrite gather_sends_concat, load_recvs_filter.
  - intros He ok r Hr.
    destruct (sends_eachrank_of_empty sendlists r He Hr) as [H1 H2].
    unfold quiet_step, send_side, recv_side, sends_thisrank_of.
    rewrite H1, gather_sends_concat, H2. simpl. done.
Qed.
End Exchange.

Lemma C5_witness :
  total_outbound Trio.sendlists = total_inbound 56 Trio.sendlists Trio.old ∧
  (Forall (λ l, l = []) Trio.sendlists →
   ∀ mpi_success r, (r < length Trio.sendlists)%nat →
     quiet_step 56 Trio.sendlists Trio.old mpi_success r).
Proof.
  apply (C5_outbound_total_equals_inbound_total 56 Trio.sendlists Trio.old).
  - simpl. lia.
  - compute_done.
Defined.

(** C5 as stated, for any distribution of departures, fails on the open
    slab with two ranks.  The detector on rank 0 stores three records: two
    for rank 1 and one, for the particle past the low x1 face, with the
    rank -1 that the table holds where there is no neighbor.  Rank 0
    counts three outbound particles; rank 0 expects none and rank 1
    expects two. *)
Lemma C5_departure_to_no_rank :
  Slab.sendlist_open
  = [mkParticleSendData 1 1 1; mkParticleSendData 3 (-1) (-1);
     mkParticleSendData 5 1 1] ∧
  (1 ≤ length Slab.sendlists_open)%nat ∧
  sends_eachrank_of Slab.sendlists_open = [[(0, -1, 1); (0, 1, 2)]; []] ∧
  total_outbound Slab.sendlists_open = 3 ∧
  nprtcl_recv_of (recv_side 56 Slab.sendlists_open (λ _, []) 0) = 0 ∧
  nprtcl_recv_of (recv_side 56 Slab.sendlists_open (λ _, []) 1) = 2 ∧
  total_inbound 56 Slab.sendlists_open (λ _, []) = 2 ∧
  total_outbound Slab.sendlists_open
  ≠ total_inbound 56 Slab.sendlists_open (λ _, []).
Proof.
  repeat split; try (vm_compute; reflexivity).
  - simpl. lia.
  - vm_compute. discriminate.
Qed.

(** ** The posting loops *)

Section Segments.
Variable sizeof_ParticleData : Z.

(** Every receive is posted on a subview that starts where the loop was
    entered, with the length and the source of its triple. *)
Lemma post_recvs_segments data_start ts :
  post_recvs sizeof_ParticleData data_start ts
  = (λ t, mkPostedReq data_start (data_start + get2 t)
                      (data_size_for sizeof_ParticleData (get2 t))
                      (get0 t)) <$> ts.
Proof. induction ts as [|t ts IH]; [done|]. simpl. by rewrite IH. Qed.

Lemma post_sends_segments data_start ts :
  post_sends sizeof_ParticleData data_start ts
  = (λ t, mkPostedReq data_start (data_start + get2 t)
                      (data_size_for sizeof_ParticleData (get2 t))
                      (get1 t)) <$> ts.
Proof. induction ts as [|t ts IH]; [done|]. simpl. by rewrite IH. Qed.

Lemma InitPrtclRecv_all_from_zero myrank sends_allranks :
  Forall (λ r, data_start_of r = 0)
         (posted_recvs (InitPrtclRecv sizeof_ParticleData myrank
                                      sends_allranks)).
Proof.
  unfold InitPrtclRecv. simpl. rewrite post_recvs_segments.
  apply Forall_fmap, Forall_forall. done.
Qed.

Lemma PackAndSendPrtcls_all_from_zero sends_thisrank :
  Forall (λ r, data_start_of r = 0)
         (posted_sends (PackAndSendPrtcls sizeof_ParticleData
                                          sends_thisrank)).
Proof.
  unfold PackAndSendPrtcls. case_bool_decide; simpl; [|constructor].
  rewrite post_sends_segments. apply Forall_fmap, Forall_forall. done.
Qed.
End Segments.

(** C1, on rank 2 of the three ranks: the inbound triples are (0,2,3) and
    (1,2,2), so the segments in the order of the inbound list are [0,3) and
    [3,5); the receives are posted for sources 0 and 1 on the subviews
    [0,3) and [0,2), which overlap. *)
Theorem C1_second_receive_starts_at_zero :
  let rs := recv_side 56 Trio.sendlists Trio.old 2 in
  recvs_thisrank_of rs = [(0, 2, 3); (1, 2, 2)] ∧
  nprtcl_recv_of rs = 5 ∧
  segments_from 0 (recvs_thisrank_of rs) = [(0, 3); (3, 5)] ∧
  segment_of <$> posted_recvs rs = [(0, 3); (0, 2)] ∧
  drank_of <$> posted_recvs rs = [0; 1].
Proof. repeat split; vm_compute; reflexivity. Qed.

(** C2, on rank 1 of the three ranks: the outbound triples are (1,0,1) and
    (1,2,2), so the sub-ranges owned by the triples are [0,1) and [1,3);
    the sends are posted to ranks 0 and 2 on the subviews [0,1) and [0,2),
    and the last record of the buffer is never sent. *)
Theorem C2_second_send_starts_at_zero :
  let sends := default [] (sends_eachrank_of Trio.sendlists !! 1%nat) in
  let ss := PackAndSendPrtcls 56 sends in
  sends = [(1, 0, 1); (1, 2, 2)] ∧
  nprtcl_send_recomputed ss = 3 ∧
  segments_from 0 sends = [(0, 1); (1, 3)] ∧
  segment_of <$> posted_sends ss = [(0, 1); (0, 2)] ∧
  drank_of <$> posted_sends ss = [0; 2].
Proof. repeat split; vm_compute; reflexivity. Qed.

(** ** The scenario of the design document *)

(** Two ranks, ten particles on rank 0, three of them across a face into
    the block of rank 1: rank 0 builds the triple list [(0,1,3)], rank 1
    selects [(0,1,3)] after the rendezvous and posts one receive of three
    records from rank 0, rank 0 posts one send of three records to rank 1. *)
Example scenario_two_ranks :
  nprtcl_send_of Ten.after_stage1 = 3 ∧
  prtcl_gid Ten.after_stage1 = [0; 0; 1; 0; 0; 1; 0; 0; 1; 0] ∧
  Ten.sends_rank0 = [(0, 1, 3)] ∧
  InitPrtclRecv 56 1 Ten.sends_allranks
  = mkRecvState [(0, 1, 3)] 1 3 [mkPostedReq 0 3 168 0] ∧
  PackAndSendPrtcls 56 Ten.sends_rank0
  = mkSendState 3 [mkPostedReq 0 3 168 1] ∧
  posted_recvs (InitPrtclRecv 56 0 Ten.sends_allranks) = [].
Proof. repeat split; vm_compute; reflexivity. Qed.

(** * Part III: further properties of the tasks *)

(** ** The detector: sizes, schedules, records *)

Lemma UpdateGID_lengths nb myrank p s :
  length (prtcl_gid (UpdateGID nb myrank p s)) = length (prtcl_gid s) ∧
  length (prtcl_pos (UpdateGID nb myrank p s)) = length (prtcl_pos s) ∧
  length (sendlist_buf (UpdateGID nb myrank p s)) = length (sendlist_buf s).
Proof.
  unfold UpdateGID. case_bool_decide; simpl; by rewrite !length_insert.
Qed.

Lemma lane_lengths md p s :
  length (prtcl_gid (SetNewPrtclGID_lane md p s)) = length (prtcl_gid s) ∧
  length (prtcl_pos (SetNewPrtclGID_lane md p s)) = length (prtcl_pos s) ∧
  length (sendlist_buf (SetNewPrtclGID_lane md p s))
  = length (sendlist_buf s).
Proof.
  unfold SetNewPrtclGID_lane.
  destruct (prtcl_gid s !! p) as [g|]; [|done].
  destruct (prtcl_pos s !! p) as [pos|]; [|done]. simpl.
  destruct (resolve_slot _ _ _ _) as [n|]; simpl.
  - rewrite length_insert. apply UpdateGID_lengths.
  - by rewrite length_insert.
Qed.

Lemma par_for_lengths md sched s :
  let s' := par_for (SetNewPrtclGID_lane md) sched s in
  length (prtcl_gid s') = length (prtcl_gid s) ∧
  length (prtcl_pos s') = length (prtcl_pos s) ∧
  length (sendlist_buf s') = length (sendlist_buf s).
Proof.
  revert s. induction sched as [|p sched IH]; intros s; [done|].
  simpl. destruct (IH (SetNewPrtclGID_lane md p s)) as (H1 & H2 & H3).
  destruct (lane_lengths md p s) as (L1 & L2 & L3).
  unfold par_for in *. simpl. by rewrite H1, H2, H3, L1, L2, L3.
Qed.

(** The arrays after the kernel, entry by entry: rows below [npart] hold
    what the lane of that row computes, rows from [npart] on are as
    before. *)
Lemma SetNewPrtclGID_rows md npart sched pgid ppos psendl i :
  schedule_of npart sched →
  (npart ≤ length pgid)%nat → (npart ≤ length ppos)%nat →
  let s := SetNewPrtclGID md sched pgid ppos psendl in
  prtcl_gid s !! i
  = (if decide (i < npart)%nat
     then g ← pgid !! i; pos ← ppos !! i; Some (gid_after md g pos)
     else pgid !! i) ∧
  prtcl_pos s !! i
  = (if decide (i < npart)%nat then pos_after md <$> ppos !! i
     else ppos !! i).
Proof.
  intros Hs Hg Hp s. case_decide as Hi.
  - destruct (lookup_lt_is_Some_2 pgid i) as [g Hgi]; [lia|].
    destruct (lookup_lt_is_Some_2 ppos i) as [pos Hpi]; [lia|].
    rewrite Hgi, Hpi. simpl.
    by apply (SetNewPrtclGID_particle md npart).
  - unfold s, SetNewPrtclGID.
    rewrite par_for_frame_gid, par_for_frame_pos; [done| |];
      unfold schedule_of in Hs; rewrite Hs, elem_of_seq; lia.
Qed.

(** The entries of the send list below the counter are the records of the
    particles that leave the rank, one for each. *)
Lemma sendlist_records md npart sched pgid ppos psendl r :
  schedule_of npart sched → (npart ≤ length psendl)%nat →
  let s := SetNewPrtclGID md sched pgid ppos psendl in
  r ∈ sendlist_of (nprtcl_send_of s) (sendlist_buf s) ↔
  ∃ p g pos, (p < npart)%nat ∧ pgid !! p = Some g ∧ ppos !! p = Some pos ∧
             departure md p g pos = Some r.
Proof.
  intros Hs Hcap s.
  destruct (SetNewPrtclGID_sendlist md _ _ pgid ppos _ Hs Hcap) as [_ Hl].
  unfold nprtcl_send_of, s. rewrite Hl. split.
  - intros Hr. apply departures_indx in Hr as (p & g & pos & Hp & Hg & Hpos & Hd).
    exists p, g, pos. repeat split; try done.
    unfold schedule_of in Hs. rewrite Hs, elem_of_seq in Hp. lia.
  - intros (p & g & pos & Hp & Hg & Hpos & Hd).
    unfold departures. apply list_elem_of_omap. exists p. split.
    + by eapply schedule_of_elem.
    + unfold departure_at. simpl. by rewrite Hg, Hpos.
Qed.

Lemma departure_fields md p g pos r :
  departure md p g pos = Some r →
  prtcl_indx r = Z.of_nat p ∧ dest_gid r = gid_after md g pos ∧
  dest_rank r ≠ my_rank md.
Proof.
  unfold departure, gid_after.
  destruct (resolved_nghbr md g pos) as [nb|]; [|done]. simpl.
  case_bool_decide; [|done]. by intros [= <-].
Qed.

(** X1: the outcome of the kernel does not depend on the order in which
    the lanes run: for two schedules of the same [npart] particles the
    block ids, the positions and the counter are equal, the arrays keep
    their sizes, and the recorded departures are the same up to their
    order in the send list. *)
Theorem X1_schedule_independence md npart sched1 sched2 pgid ppos psendl :
  schedule_of npart sched1 → schedule_of npart sched2 →
  (npart ≤ length pgid)%nat → (npart ≤ length ppos)%nat →
  (npart ≤ length psendl)%nat →
  let s1 := SetNewPrtclGID md sched1 pgid ppos psendl in
  let s2 := SetNewPrtclGID md sched2 pgid ppos psendl in
  prtcl_gid s1 = prtcl_gid s2 ∧ prtcl_pos s1 = prtcl_pos s2 ∧
  nprtcl_send_of s1 = nprtcl_send_of s2 ∧
  length (prtcl_gid s1) = length pgid ∧ length (prtcl_pos s1) = length ppos ∧
  length (sendlist_buf s1) = length psendl ∧
  sendlist_of (nprtcl_send_of s1) (sendlist_buf s1)
  ≡ₚ sendlist_of (nprtcl_send_of s2) (sendlist_buf s2).
Proof.
  intros H1 H2 Hg Hp Hcap s1 s2.
  assert (Hperm : sched1 ≡ₚ sched2).
  { unfold schedule_of in *. by rewrite H1, H2. }
  destruct (SetNewPrtclGID_sendlist md _ _ pgid ppos _ H1 Hcap) as [Hc1 Hl1].
  destruct (SetNewPrtclGID_sendlist md _ _ pgid ppos _ H2 Hcap) as [Hc2 Hl2].
  fold s1 in Hc1, Hl1. fold s2 in Hc2, Hl2.
  assert (Hdep : departures md sched1 (mkPrtclState pgid ppos psendl 0)
                 ≡ₚ departures md sched2 (mkPrtclState pgid ppos psendl 0)).
  { unfold departures. by rewrite Hperm. }
  destruct (par_for_lengths md sched1 (mkPrtclState pgid ppos psendl 0))
    as (L1 & L2 & L3).
  subst s1 s2. repeat split; try done.
  - apply list_eq. intros i.
    destruct (SetNewPrtclGID_rows md _ _ pgid ppos psendl i H1 Hg Hp) as [-> _].
    by destruct (SetNewPrtclGID_rows md _ _ pgid ppos psendl i H2 Hg Hp)
      as [-> _].
  - apply list_eq. intros i.
    destruct (SetNewPrtclGID_rows md _ _ pgid ppos psendl i H1 Hg Hp) as [_ ->].
    by destruct (SetNewPrtclGID_rows md _ _ pgid ppos psendl i H2 Hg Hp)
      as [_ ->].
  - unfold nprtcl_send_of. rewrite Hc1, Hc2. by rewrite Hdep.
  - unfold nprtcl_send_of. by rewrite Hl1, Hl2.
Qed.

Lemma X1_witness :
  let s1 := SetNewPrtclGID Slab.md Slab.sched Slab.pgid Slab.ppos
                           Slab.psendl in
  let s2 := SetNewPrtclGID Slab.md [5; 4; 3; 2; 1; 0]%nat Slab.pgid Slab.ppos
                           Slab.psendl in
  prtcl_gid s1 = prtcl_gid s2 ∧ prtcl_pos s1 = prtcl_pos s2 ∧
  nprtcl_send_of s1 = nprtcl_send_of s2 ∧
  length (prtcl_gid s1) = length Slab.pgid ∧
  length (prtcl_pos s1) = length Slab.ppos ∧
  length (sendlist_buf s1) = length Slab.psendl ∧
  sendlist_of (nprtcl_send_of s1) (sendlist_buf s1)
  ≡ₚ sendlist_of (nprtcl_send_of s2) (sendlist_buf s2).
Proof.
  apply (X1_schedule_independence Slab.md 6 Slab.sched [5; 4; 3; 2; 1; 0]%nat
           Slab.pgid Slab.ppos Slab.psendl).
  - unfold schedule_of. reflexivity.
  - unfold schedule_of. change (seq 0 6) with (reverse [5; 4; 3; 2; 1; 0]%nat).
    symmetry. apply reverse_Permutation.
  - simpl. lia.
  - simpl. lia.
  - simpl. lia.
Defined.

(** No record for a particle whose lane resolves an entry of the local
    rank. *)
Lemma departure_same_rank md p g pos nb :
  resolved_nghbr md g pos = Some nb → rank nb = my_rank md →
  departure md p g pos = None.
Proof.
  intros Hnb Hrk. unfold departure. rewrite Hnb. simpl.
  by rewrite bool_decide_eq_false_2 by (intros ?; done).
Qed.

(** X2: the send list holds exactly the particles that leave the rank:
    every record below the counter names a particle of the rank whose lane
    resolved a neighbor on another rank, carries the block id just written
    for that particle and a destination rank other than the local one;
    every such particle has a record; and no particle has two.  A particle
    that moves between blocks of the same rank gets the block id of the
    resolved entry and no record. *)
Theorem X2_send_list_holds_the_leavers md npart sched pgid ppos psendl :
  schedule_of npart sched → (npart ≤ length psendl)%nat →
  let s := SetNewPrtclGID md sched pgid ppos psendl in
  let sendlist := sendlist_of (nprtcl_send_of s) (sendlist_buf s) in
  (∀ r, r ∈ sendlist →
     dest_rank r ≠ my_rank md ∧
     ∃ p, (p < npart)%nat ∧ prtcl_indx r = Z.of_nat p ∧
          off_rank md pgid ppos p ∧
          prtcl_gid s !! p = Some (dest_gid r)) ∧
  (∀ p, (p < npart)%nat → off_rank md pgid ppos p →
     ∃ r, r ∈ sendlist ∧ prtcl_indx r = Z.of_nat p) ∧
  NoDup (prtcl_indx <$> sendlist) ∧
  (∀ p g pos nb, (p < npart)%nat →
     pgid !! p = Some g → ppos !! p = Some pos →
     resolved_nghbr md g pos = Some nb → rank nb = my_rank md →
     prtcl_gid s !! p = Some (gid nb) ∧
     ∀ r, r ∈ sendlist → prtcl_indx r ≠ Z.of_nat p).
Proof.
  intros Hs Hcap s sendlist. split; [|split; [|split]].
  - intros r Hr.
    apply (sendlist_records md npart sched pgid ppos psendl r Hs Hcap) in Hr
      as (p & g & pos & Hp & Hg & Hpos & Hd).
    destruct (departure_fields _ _ _ _ _ Hd) as (Hi & Hgid & Hrk).
    split; [done|]. exists p. repeat split; try done.
    + unfold off_rank, departure_at. simpl. rewrite Hg, Hpos. simpl. by eexists.
    + rewrite Hgid.
      by apply (SetNewPrtclGID_particle md npart sched pgid ppos psendl p g pos).
  - intros p Hp [r Hr]. unfold departure_at in Hr. simpl in Hr.
    destruct (pgid !! p) as [g|] eqn:Hg; [|done].
    destruct (ppos !! p) as [pos|] eqn:Hpos; [|done]. simpl in Hr.
    exists r. split; [|by apply departure_fields in Hr as (? & _)].
    apply (sendlist_records md npart sched pgid ppos psendl r Hs Hcap).
    by exists p, g, pos.
  - destruct (SetNewPrtclGID_sendlist md _ _ pgid ppos _ Hs Hcap) as [_ Hl].
    unfold sendlist, nprtcl_send_of, s. rewrite Hl.
    apply departures_NoDup. by eapply schedule_of_NoDup.
  - intros p g pos nb Hp Hg Hpos Hnb Hrk. split.
    + destruct (SetNewPrtclGID_particle md _ _ _ _ psendl _ _ _ Hs Hp Hg Hpos)
        as [Hg' _].
      fold s in Hg'. rewrite Hg'. unfold gid_after. by rewrite Hnb.
    + intros r Hr Hi.
      apply (sendlist_records md npart sched pgid ppos psendl r Hs Hcap) in Hr
        as (p' & g' & pos' & Hp' & Hg'' & Hpos' & Hd).
      pose proof (departure_indx _ _ _ _ _ Hd) as Hi'.
      assert (p' = p) as -> by lia.
      rewrite Hg in Hg''. injection Hg'' as <-.
      rewrite Hpos in Hpos'. injection Hpos' as <-.
      by rewrite (departure_same_rank md p g pos nb Hnb Hrk) in Hd.
Qed.

Lemma X2_witness :
  let s := SetNewPrtclGID Slab.md Slab.sched Slab.pgid Slab.ppos
                          Slab.psendl in
  let sendlist := sendlist_of (nprtcl_send_of s) (sendlist_buf s) in
  (∀ r, r ∈ sendlist →
     dest_rank r ≠ my_rank Slab.md ∧
     ∃ p, (p < 6)%nat ∧ prtcl_indx r = Z.of_nat p ∧
          off_rank Slab.md Slab.pgid Slab.ppos p ∧
          prtcl_gid s !! p = Some (dest_gid r)) ∧
  (∀ p, (p < 6)%nat → off_rank Slab.md Slab.pgid Slab.ppos p →
     ∃ r, r ∈ sendlist ∧ prtcl_indx r = Z.of_nat p) ∧
  NoDup (prtcl_indx <$> sendlist) ∧
  (∀ p g pos nb, (p < 6)%nat →
     Slab.pgid !! p = Some g → Slab.ppos !! p = Some pos →
     resolved_nghbr Slab.md g pos = Some nb → rank nb = my_rank Slab.md →
     prtcl_gid s !! p = Some (gid nb) ∧
     ∀ r, r ∈ sendlist → prtcl_indx r ≠ Z.of_nat p).
Proof.
  apply (X2_send_list_holds_the_leavers Slab.md 6 Slab.sched Slab.pgid
           Slab.ppos Slab.psendl).
  - unfold schedule_of. reflexivity.
  - simpl. lia.
Defined.

(** ** The periodic reset, once *)

(** X3: the reset is applied once per axis, with the rounded width, and
    the value it stores need not lie within the mesh.  On the mesh with
    extents [-0.5, 1.7] a particle whose x1 is the binary64 value next
    below the minimum is moved to the value next above 1.7: it is below
    the minimum before the kernel and beyond the maximum after it, while
    its other coordinates, which are within the extents, are kept. *)
Theorem X3_reset_can_overshoot :
  let s := B64.SetNewPrtclGID B64.Ulp.md [0%nat] [0] [B64.Ulp.pos] [] in
  let ms := B64.mesh_size B64.Ulp.md in
  B64.well_formed ms ∧
  PrimFloat.ltb (B64.IPX B64.Ulp.pos) (B64.x1min ms) = true ∧
  B64.prtcl_pos s !! 0%nat
  = Some (B64.mkPosition B64.Ulp.x1_after (B64.IPY B64.Ulp.pos)
                         (B64.IPZ B64.Ulp.pos)) ∧
  PrimFloat.ltb (B64.x1max ms) B64.Ulp.x1_after = true.
Proof. repeat split; vm_compute; reflexivity. Qed.

(** ** The slots the kernel can resolve *)

Ltac pick_dir tac := first [tac Lo | tac Hi].
Ltac pick_axis tac := first [tac X1 | tac X2 | tac X3].
Ltac name_slot :=
  first
    [ left; pick_axis ltac:(fun a => pick_dir ltac:(fun d =>
        by exists a, d))
    | right; left; pick_dir ltac:(fun d => pick_dir ltac:(fun d' =>
        exists d, d'; first [by left | by right; left | by right; right]))
    | right; right; pick_dir ltac:(fun d1 => pick_dir ltac:(fun d2 =>
        pick_dir ltac:(fun d3 => by exists d1, d2, d3))) ].

(** X4: whatever the position and the block extents, a slot resolved by
    the kernel is an index of the 56-entry neighbor table, it is one of the
    face, edge and corner slots of the numbering, it is never slot 24, and
    it is resolved only for a particle that is not within the six extents
    of its block. *)
Theorem X4_resolved_slot_is_a_table_index mb pos n :
  resolve_slot mb (IPX pos) (IPY pos) (IPZ pos) = Some n →
  0 ≤ n < 56 ∧ n ≠ 24 ∧
  (is_face_slot n ∨ is_edge_slot n ∨ is_corner_slot n) ∧
  ¬ inside mb pos.
Proof.
  intros Hres. split; [|split; [|split]].
  - revert Hres. unfold resolve_slot.
    repeat case_bool_decide; intros [= <-]; lia.
  - intros ->. by apply slot_24_unreachable in Hres.
  - revert Hres. unfold resolve_slot.
    repeat case_bool_decide; intros [= <-]; name_slot.
  - intros Hin. by rewrite (resolve_slot_inside _ _ Hin) in Hres.
Qed.

Lemma X4_witness :
  0 ≤ 48 < 56 ∧ 48 ≠ 24 ∧
  (is_face_slot 48 ∨ is_edge_slot 48 ∨ is_corner_slot 48) ∧
  ¬ inside Slab.block0
      (mkPosition (Slab.q (-1) 10) (Slab.q (-1) 10) (Slab.q (-1) 10)).
Proof.
  apply (X4_resolved_slot_is_a_table_index Slab.block0
           (mkPosition (Slab.q (-1) 10) (Slab.q (-1) 10) (Slab.q (-1) 10)) 48).
  vm_compute. reflexivity.
Defined.

(** ** The triple list as a run-length encoding *)

Lemma adjacent_differ_cons a b l :
  a ≠ b → adjacent_differ (b :: l) → adjacent_differ (a :: b :: l).
Proof.
  intros Hab Hl [|i] x y; simpl.
  - by intros [= <-] [= <-].
  - apply Hl.
Qed.

Lemma load_sends_loop_adjacent myrank rank nprtcl rest :
  ∃ tl, get1 <$> load_sends_loop myrank rank nprtcl rest [] = rank :: tl
        ∧ adjacent_differ (rank :: tl).
Proof.
  revert rank nprtcl. induction rest as [|x rest IH]; intros rank nprtcl.
  { exists []. split; [done|]. by intros [|i] a b ? ?. }
  rewrite load_sends_loop_cons. case_bool_decide as Hx; [apply IH|].
  destruct (IH (dest_rank x) 1) as (tl & Heq & Htl).
  exists (dest_rank x :: tl). split; [by rewrite fmap_cons, Heq|].
  apply adjacent_differ_cons; [congruence|done].
Qed.

(** X5: on any send list, sorted or not, the walk of CountSendsAndRecvs is
    a run-length encoding that loses nothing: expanding every triple into
    [count] copies of its destination rank gives back the destination ranks
    of the list in order; every triple has the local rank as source and a
    count of at least one; neighbouring triples have different destination
    ranks; and the counts add up to the length of the list. *)
Theorem X5_triples_encode_the_rank_sequence myrank
    (sendlist : list ParticleSendData) :
  let sends := load_sends myrank sendlist in
  runs_of sends = ranks sendlist ∧
  Forall (λ t, get0 t = myrank ∧ 0 < get2 t) sends ∧
  adjacent_differ (get1 <$> sends) ∧
  sum_counts sends = Z.of_nat (length sendlist).
Proof.
  intros sends. split; [apply load_sends_runs|].
  split; [apply load_sends_fields|]. split; [|apply load_sends_sum].
  unfold sends. destruct sendlist as [|r0 rest].
  { by intros i a b ?. }
  simpl. by destruct (load_sends_loop_adjacent myrank (dest_rank r0) 1 rest)
    as (tl & -> & Htl).
Qed.

(** ** Triples that do not depend on the order of the records *)

Lemma sorted_ranks_le sorted :
  StronglySorted (not_after SortByRank) sorted →
  StronglySorted Z.le (ranks sorted).
Proof.
  unfold ranks. induction 1 as [|a l Hs IH Hall]; [constructor|].
  rewrite fmap_cons. constructor; [done|].
  apply Forall_fmap. eapply Forall_impl; [exact Hall|].
  intros b. apply not_after_SortByRank.
Qed.

Lemma load_sends_loop_ranks_only myrank rank nprtcl rest1 rest2 acc :
  ranks rest1 = ranks rest2 →
  load_sends_loop myrank rank nprtcl rest1 acc
  = load_sends_loop myrank rank nprtcl rest2 acc.
Proof.
  revert rank nprtcl rest2 acc.
  induction rest1 as [|x rest1 IH]; intros rank nprtcl [|y rest2] acc;
    try done.
  unfold ranks. rewrite !fmap_cons. intros [= Hxy Hrest].
  simpl. rewrite Hxy. case_bool_decide; by apply IH.
Qed.

Lemma load_sends_ranks_only myrank l1 l2 :
  ranks l1 = ranks l2 → load_sends myrank l1 = load_sends myrank l2.
Proof.
  destruct l1 as [|x l1], l2 as [|y l2]; try done.
  unfold ranks. rewrite !fmap_cons. intros [= Hxy Hrest].
  simpl. rewrite Hxy. by apply load_sends_loop_ranks_only.
Qed.

(** Two sorted rearrangements of the same records give the same triples. *)
Lemma load_sends_any_order myrank l1 l2 sorted1 sorted2 :
  l1 ≡ₚ l2 →
  sort_outcome SortByRank l1 sorted1 → sort_outcome SortByRank l2 sorted2 →
  load_sends myrank sorted1 = load_sends myrank sorted2.
Proof.
  intros Hl [Hp1 Hs1] [Hp2 Hs2]. apply load_sends_ranks_only.
  apply (StronglySorted_unique Z.le).
  - by apply sorted_ranks_le.
  - by apply sorted_ranks_le.
  - unfold ranks. by rewrite Hp1, Hp2, Hl.
Qed.

(** X6: the triple list depends neither on the order in which the
    departures were recorded nor on how std::sort orders records of equal
    destination rank: any two outcomes of the sort, on any two
    rearrangements of the same records, are walked into the same triples. *)
Theorem X6_triples_ignore_record_order myrank l1 l2 sorted1 sorted2 :
  l1 ≡ₚ l2 →
  sort_outcome SortByRank l1 sorted1 → sort_outcome SortByRank l2 sorted2 →
  load_sends myrank sorted1 = load_sends myrank sorted2 ∧
  ranks sorted1 = ranks sorted2.
Proof.
  intros Hl Ho1 Ho2. split; [by eapply load_sends_any_order|].
  destruct Ho1 as [Hp1 Hs1], Ho2 as [Hp2 Hs2].
  apply (StronglySorted_unique Z.le); [by apply sorted_ranks_le..|].
  unfold ranks. by rewrite Hp1, Hp2, Hl.
Qed.

Lemma X6_witness :
  let sorted1 := [mkParticleSendData 3 5 0; mkParticleSendData 1 20 2;
                  mkParticleSendData 8 22 2] in
  let sorted2 := [mkParticleSendData 3 5 0; mkParticleSendData 8 22 2;
                  mkParticleSendData 1 20 2] in
  load_sends 1 sorted1 = load_sends 1 sorted2 ∧
  ranks sorted1 = ranks sorted2.
Proof.
  apply (X6_triples_ignore_record_order 1
           [mkParticleSendData 1 20 2; mkParticleSendData 3 5 0;
            mkParticleSendData 8 22 2]
           (reverse [mkParticleSendData 1 20 2; mkParticleSendData 3 5 0;
                     mkParticleSendData 8 22 2])).
  - symmetry. apply reverse_Permutation.
  - split; [apply perm_swap|compute_done].
  - split; [|compute_done]. simpl. apply perm_swap.
Defined.

(** X7: the triples a rank builds from its own detector run all have the
    local rank as source, another rank as destination and a count of at
    least one, so the rank selects none of them as inbound; and they are
    the same triples whatever the order in which the lanes of the detector
    ran. *)
Theorem X7_own_triples_go_elsewhere md npart sched pgid ppos psendl :
  schedule_of npart sched → (npart ≤ length psendl)%nat →
  let s := SetNewPrtclGID md sched pgid ppos psendl in
  let sends := CountSends (my_rank md) (nprtcl_send_of s) (sendlist_buf s) in
  Forall (λ t, get0 t = my_rank md ∧ get1 t ≠ my_rank md ∧ 0 < get2 t)
         sends ∧
  load_recvs (my_rank md) sends [] = [] ∧
  (∀ sched', schedule_of npart sched' →
     let s' := SetNewPrtclGID md sched' pgid ppos psendl in
     CountSends (my_rank md) (nprtcl_send_of s') (sendlist_buf s') = sends).
Proof.
  intros Hs Hcap s sends.
  assert (Hall : Forall (λ t, get0 t = my_rank md ∧ get1 t ≠ my_rank md
                              ∧ 0 < get2 t) sends).
  { apply Forall_forall. intros t Ht. unfold sends, CountSends in Ht.
    destruct (load_sends_of_sorted (my_rank md) _ _
                (std_sort_outcome (sendlist_of (nprtcl_send_of s)
                                               (sendlist_buf s))))
      as (_ & _ & _ & _ & Hf).
    destruct (Hf t Ht) as (H0 & Hin & _).
    pose proof (load_sends_fields (my_rank md)
                  (std_sort SortByRank (sendlist_of (nprtcl_send_of s)
                                                    (sendlist_buf s)))) as Hpos.
    rewrite Forall_forall in Hpos. destruct (Hpos t Ht) as [_ Hc].
    split; [done|]. split; [|done].
    apply list_elem_of_fmap in Hin as (r & -> & Hr).
    apply (sendlist_records md npart sched pgid ppos psendl r Hs Hcap) in Hr
      as (p & g & pos & _ & _ & _ & Hd).
    by apply departure_fields in Hd as (_ & _ & ?). }
  split; [done|]. split.
  - rewrite load_recvs_filter. simpl.
    induction Hall as [|t ts (_ & Hne & _) _ IH]; [done|].
    by rewrite filter_cons_False.
  - intros sched' Hs' s'. unfold sends, CountSends.
    apply (load_sends_any_order _
             (sendlist_of (nprtcl_send_of s') (sendlist_buf s'))
             (sendlist_of (nprtcl_send_of s) (sendlist_buf s)));
      [|apply std_sort_outcome..].
    destruct (SetNewPrtclGID_sendlist md _ _ pgid ppos _ Hs Hcap) as [_ Hl].
    destruct (SetNewPrtclGID_sendlist md _ _ pgid ppos _ Hs' Hcap) as [_ Hl'].
    unfold nprtcl_send_of, s, s'. rewrite Hl, Hl'. unfold departures.
    unfold schedule_of in *. by rewrite Hs, Hs'.
Qed.

Lemma X7_witness :
  let s := SetNewPrtclGID Slab.md Slab.sched Slab.pgid Slab.ppos
                          Slab.psendl in
  let sends :=
    CountSends (my_rank Slab.md) (nprtcl_send_of s) (sendlist_buf s) in
  Forall (λ t, get0 t = my_rank Slab.md ∧ get1 t ≠ my_rank Slab.md
               ∧ 0 < get2 t) sends ∧
  load_recvs (my_rank Slab.md) sends [] = [] ∧
  (∀ sched', schedule_of 6 sched' →
     let s' := SetNewPrtclGID Slab.md sched' Slab.pgid Slab.ppos
                              Slab.psendl in
     CountSends (my_rank Slab.md) (nprtcl_send_of s') (sendlist_buf s')
     = sends).
Proof.
  apply (X7_own_triples_go_elsewhere Slab.md 6 Slab.sched Slab.pgid
           Slab.ppos Slab.psendl).
  - unfold schedule_of. reflexivity.
  - simpl. lia.
Defined.

(** ** The layout of the gathered array *)

Lemma displ_from_closed acc counts :
  displ_from acc counts
  = (λ n, acc + Zsum (take n counts)) <$> seq 0 (length counts).
Proof.
  revert acc. induction counts as [|c counts IH]; intros acc; [done|].
  change (displ_from acc (c :: counts))
    with (acc :: displ_from (acc + c) counts).
  change (length (c :: counts)) with (S (length counts)).
  rewrite <-cons_seq, fmap_cons. f_equal.
  - change (take 0 (c :: counts)) with ([] : list Z). unfold Zsum. simpl. lia.
  - rewrite IH, <-fmap_S_seq, <-list_fmap_compose.
    apply list_fmap_ext. intros _ n _. unfold compose.
    change (take (S n) (c :: counts)) with (c :: take n counts).
    rewrite Zsum_cons. lia.
Qed.

(** X8: the displacement table of the rendezvous has one entry per rank;
    the entry of rank n is the number of triples of the ranks before it, so
    each block starts where the one before ends; and the size given to the
    gathered array is the number of triples of all ranks. *)
Theorem X8_displacements_are_prefix_sums (nsends_eachrank : list Z) :
  nsends_displ nsends_eachrank
  = (λ n, Zsum (take n nsends_eachrank))
      <$> seq 0 (length nsends_eachrank) ∧
  length (nsends_displ nsends_eachrank) = length nsends_eachrank ∧
  nsends_allranks_of nsends_eachrank = Zsum nsends_eachrank ∧
  (∀ n d c, nsends_displ nsends_eachrank !! n = Some d →
            nsends_eachrank !! n = Some c →
            nsends_displ nsends_eachrank !! S n = Some (d + c) ∨
            (S n = length nsends_eachrank ∧
             nsends_allranks_of nsends_eachrank = d + c)).
Proof.
  assert (Hcl : nsends_displ nsends_eachrank
                = (λ n, Zsum (take n nsends_eachrank))
                    <$> seq 0 (length nsends_eachrank)).
  { unfold nsends_displ. rewrite displ_from_closed.
    apply list_fmap_ext. intros _ n _. lia. }
  split; [done|]. split; [by rewrite Hcl, length_fmap, length_seq|].
  split; [apply nsends_allranks_of_sum|].
  intros n d c Hd Hc. rewrite Hcl in *.
  apply list_lookup_fmap_Some in Hd as (k & -> & Hk).
  apply lookup_seq in Hk as [-> Hn]. simpl in *.
  assert (Hstep : Zsum (take (S n) nsends_eachrank)
                  = Zsum (take n nsends_eachrank) + c).
  { rewrite (take_S_r _ _ _ Hc). clear.
    induction (take n nsends_eachrank) as [|x l IH].
    - unfold Zsum. simpl. lia.
    - rewrite <-app_comm_cons, !Zsum_cons, IH. lia. }
  destruct (decide (S n < length nsends_eachrank)%nat) as [Hlt|Hge].
  - left. rewrite list_lookup_fmap, lookup_seq_lt by done. simpl.
    by rewrite Hstep.
  - right. split; [lia|]. rewrite nsends_allranks_of_sum, <-Hstep.
    by rewrite take_ge by lia.
Qed.

Lemma concat_lookup {A} (ls : list (list A)) r l n t :
  ls !! r = Some l → l !! n = Some t →
  concat ls !! (length (concat (take r ls)) + n)%nat = Some t.
Proof.
  revert r. induction ls as [|l0 ls IH]; intros r Hr Hn; [done|].
  destruct r as [|r]; simpl in *.
  - injection Hr as ->. by apply lookup_app_l_Some.
  - rewrite length_app, <-Nat.add_assoc, lookup_app_r by lia.
    replace (length l0 + (length (concat (take r ls)) + n) - length l0)%nat
      with (length (concat (take r ls)) + n)%nat by lia.
    by apply IH.
Qed.

(** X9: after the rendezvous the n-th triple of rank r sits at index
    displacement(r) + n of sends_allranks, the array has the size computed
    for it, and it is the same array on every rank: what the vector held
    before the resize does not show. *)
Theorem X9_gathered_triples_sit_at_their_displacement
    (sends_eachrank : list (list ituple)) (old : list ituple) r sr n t d :
  sends_eachrank !! r = Some sr → sr !! n = Some t →
  nsends_displ ((λ s, Z.of_nat (length s)) <$> sends_eachrank) !! r = Some d →
  gather_sends sends_eachrank old !! (Z.to_nat d + n)%nat = Some t ∧
  Z.of_nat (length (gather_sends sends_eachrank old))
  = nsends_allranks_of ((λ s, Z.of_nat (length s)) <$> sends_eachrank) ∧
  (∀ old', gather_sends sends_eachrank old'
           = gather_sends sends_eachrank old).
Proof.
  intros Hr Hn Hd. rewrite !gather_sends_concat.
  split; [|split].
  - unfold nsends_displ in Hd. rewrite displ_from_closed in Hd.
    apply list_lookup_fmap_Some in Hd as (k & -> & Hk).
    apply lookup_seq in Hk as [-> _]. simpl.
    rewrite <-fmap_take, Zsum_lengths, Z.add_0_l, Nat2Z.id.
    by apply concat_lookup with sr.
  - by rewrite nsends_allranks_of_sum, Zsum_lengths.
  - intros old'. by rewrite gather_sends_concat.
Qed.

Lemma X9_witness :
  gather_sends [[(0, 2, 3)]; [(1, 0, 1); (1, 2, 2)]; []] [(9, 9, 9)]
    !! (Z.to_nat 1 + 1)%nat = Some (1, 2, 2) ∧
  Z.of_nat (length (gather_sends [[(0, 2, 3)]; [(1, 0, 1); (1, 2, 2)]; []]
                                 [(9, 9, 9)]))
  = nsends_allranks_of ((λ s, Z.of_nat (length s))
                          <$> [[(0, 2, 3)]; [(1, 0, 1); (1, 2, 2)]; []]) ∧
  (∀ old', gather_sends [[(0, 2, 3)]; [(1, 0, 1); (1, 2, 2)]; []] old'
           = gather_sends [[(0, 2, 3)]; [(1, 0, 1); (1, 2, 2)]; []]
                          [(9, 9, 9)]).
Proof.
  apply (X9_gathered_triples_sit_at_their_displacement
           [[(0, 2, 3)]; [(1, 0, 1); (1, 2, 2)]; []] [(9, 9, 9)]
           1 [(1, 0, 1); (1, 2, 2)] 1 (1, 2, 2) 1); reflexivity.
Defined.

(** ** What is posted, and where *)

Lemma sum_counts_nonneg ts : Forall (λ t, 0 ≤ get2 t) ts → 0 ≤ sum_counts ts.
Proof.
  induction 1 as [|t ts Ht _ IH]; [done|]. rewrite sum_counts_cons. lia.
Qed.

Lemma sum_counts_bounds_each ts t :
  Forall (λ t, 0 ≤ get2 t) ts → t ∈ ts → get2 t ≤ sum_counts ts.
Proof.
  induction 1 as [|u ts Hu Hall IH]; intros Ht; [by apply elem_of_nil in Ht|].
  rewrite sum_counts_cons. pose proof (sum_counts_nonneg ts Hall).
  apply elem_of_cons in Ht as [->|Ht]; [lia|]. specialize (IH Ht). lia.
Qed.

(** The byte count of a request, as the narrowing leaves it. *)
Lemma data_size_for_wraps sz n :
  ∃ k, data_size_for sz n = n * sz + 2 ^ 32 * k.
Proof.
  unfold data_size_for, to_int, to_size_t.
  rewrite (Z.mod_eq n (2 ^ 64)) by lia.
  rewrite (Z.mod_eq (_ * sz) (2 ^ 64)) by lia.
  rewrite (Z.mod_eq (_ + 2 ^ 31) (2 ^ 32)) by lia.
  set (a := n `div` 2 ^ 64). set (b := _ `div` 2 ^ 64).
  set (c := _ `div` 2 ^ 32).
  exists (- 2 ^ 32 * a * sz - 2 ^ 32 * b - c).
  change (2 ^ 64) with (2 ^ 32 * 2 ^ 32). lia.
Qed.

Lemma data_size_for_int sz n : - 2 ^ 31 ≤ data_size_for sz n < 2 ^ 31.
Proof.
  unfold data_size_for, to_int.
  pose proof (Z.mod_pos_bound (to_size_t (to_size_t n * sz) + 2 ^ 31)
                              (2 ^ 32)).
  lia.
Qed.

Lemma data_size_for_mod sz n : (data_size_for sz n - n * sz) `mod` 2 ^ 32 = 0.
Proof.
  destruct (data_size_for_wraps sz n) as [k ->].
  replace (n * sz + 2 ^ 32 * k - n * sz) with (k * 2 ^ 32) by lia.
  apply Z.mod_mul. lia.
Qed.

Lemma data_size_for_exact sz n :
  0 ≤ n * sz < 2 ^ 31 → data_size_for sz n = n * sz.
Proof.
  intros H. destruct (data_size_for_wraps sz n) as [k Hk].
  pose proof (data_size_for_int sz n). lia.
Qed.

(** Forty million records of 56 bytes: the product 2240000000 is not an
    int, and the request asks for a negative number of bytes. *)
Example data_size_for_large : data_size_for 56 40000000 = -2054967296.
Proof. reflexivity. Qed.

Section Fit.
Variable sizeof_ParticleData : Z.

Lemma posted_fits n start (t : ituple) drank :
  0 ≤ start → 0 ≤ get2 t → start + get2 t ≤ n →
  fits_buffer sizeof_ParticleData n
    (mkPostedReq start (start + get2 t)
                 (data_size_for sizeof_ParticleData (get2 t)) drank).
Proof.
  intros H0 Ht Hn. unfold fits_buffer, count_of. simpl.
  replace (start + get2 t - start) with (get2 t) by lia.
  pose proof (data_size_for_int sizeof_ParticleData (get2 t)).
  pose proof (data_size_for_mod sizeof_ParticleData (get2 t)).
  repeat split; try lia. apply data_size_for_exact.
Qed.

(** X10: with counts that are not negative, no posted receive reaches
    beyond the nprtcl_recv elements of the receive buffer and no posted
    send beyond the nprtcl_send elements of the send buffer; the counts of
    the posted receives add up to nprtcl_recv; and the byte count of each
    request is an int equal to count * sizeof(ParticleData) modulo 2^32,
    which is that product only as long as the product is an int. *)
Theorem X10_posted_subviews_fit_their_buffer myrank
    (sends_allranks sends_thisrank : list ituple) :
  Forall (λ t, 0 ≤ get2 t) sends_allranks →
  Forall (λ t, 0 ≤ get2 t) sends_thisrank →
  let rs := InitPrtclRecv sizeof_ParticleData myrank sends_allranks in
  let ss := PackAndSendPrtcls sizeof_ParticleData sends_thisrank in
  Forall (fits_buffer sizeof_ParticleData (nprtcl_recv_of rs))
         (posted_recvs rs) ∧
  Forall (fits_buffer sizeof_ParticleData (nprtcl_send_recomputed ss))
         (posted_sends ss) ∧
  Zsum (count_of <$> posted_recvs rs) = nprtcl_recv_of rs.
Proof.
  intros Hall Hsend rs ss.
  assert (Hrecvs : Forall (λ t, 0 ≤ get2 t)
                          (load_recvs myrank sends_allranks [])).
  { rewrite load_recvs_filter. simpl. apply Forall_forall. intros t Ht.
    apply list_elem_of_filter in Ht as [_ Ht].
    rewrite Forall_forall in Hall. by apply Hall. }
  split; [|split].
  - unfold rs, InitPrtclRecv. simpl. rewrite post_recvs_segments.
    apply Forall_fmap, Forall_forall. intros t Ht. simpl.
    pose proof (sum_counts_bounds_each _ t Hrecvs Ht).
    rewrite Forall_forall in Hrecvs. specialize (Hrecvs t Ht). simpl in *.
    apply posted_fits; lia.
  - unfold ss, PackAndSendPrtcls. case_bool_decide; simpl; [|constructor].
    rewrite post_sends_segments.
    apply Forall_fmap, Forall_forall. intros t Ht. simpl.
    pose proof (sum_counts_bounds_each _ t Hsend Ht).
    rewrite Forall_forall in Hsend. specialize (Hsend t Ht). simpl in *.
    apply posted_fits; lia.
  - unfold rs, InitPrtclRecv. simpl. rewrite post_recvs_segments.
    generalize (load_recvs myrank sends_allranks []). clear.
    induction l as [|t ts IH]; [done|].
    rewrite !fmap_cons, Zsum_cons, sum_counts_cons, IH.
    unfold count_of. simpl. lia.
Qed.
End Fit.

Lemma X10_witness :
  let rs := InitPrtclRecv 56 2 [(0, 2, 3); (1, 0, 1); (1, 2, 2)] in
  let ss := PackAndSendPrtcls 56 [(1, 0, 1); (1, 2, 2)] in
  Forall (fits_buffer 56 (nprtcl_recv_of rs)) (posted_recvs rs) ∧
  Forall (fits_buffer 56 (nprtcl_send_recomputed ss)) (posted_sends ss) ∧
  Zsum (count_of <$> posted_recvs rs) = nprtcl_recv_of rs.
Proof.
  apply (X10_posted_subviews_fit_their_buffer 56 2
           [(0, 2, 3); (1, 0, 1); (1, 2, 2)] [(1, 0, 1); (1, 2, 2)]);
    compute_done.
Defined.

(** ** Who posts to whom *)

Lemma StronglySorted_filter {A} (R : relation A) (P : A → Prop)
    `{∀ x, Decision (P x)} (l : list A) :
  StronglySorted R l → StronglySorted R (filter P l).
Proof.
  induction 1 as [|x l Hs IH Hall]; [constructor|].
  rewrite filter_cons. case_decide; [|done].
  constructor; [done|]. rewrite Forall_forall in *. intros y Hy.
  apply list_elem_of_filter in Hy as [_ Hy]. by apply Hall.
Qed.

Lemma one_sender_order me ts :
  Forall (λ t, get0 t = me) ts → StronglySorted Z.lt (get1 <$> ts) →
  StronglySorted by_sender_then_dest ts.
Proof.
  induction 1 as [|t ts Ht Hall IH]; intros Hs; [constructor|].
  rewrite fmap_cons in Hs. apply StronglySorted_inv in Hs as [Hs Hlt].
  constructor; [by apply IH|].
  rewrite Forall_fmap in Hlt. rewrite Forall_forall in *.
  intros u Hu. right. split; [by rewrite Ht, (Hall u Hu)|by apply Hlt].
Qed.

Lemma load_sends_order me l :
  Forall (λ t, get0 t = me) (load_sends me (std_sort SortByRank l)) ∧
  StronglySorted by_sender_then_dest (load_sends me (std_sort SortByRank l)).
Proof.
  assert (Hf : Forall (λ t, get0 t = me)
                      (load_sends me (std_sort SortByRank l))).
  { eapply Forall_impl; [apply load_sends_fields|]. by intros t [? _]. }
  split; [done|]. apply (one_sender_order me); [done|].
  apply load_sends_increasing, std_sort_outcome.
Qed.

(** The gathered array is ordered by sender, and by destination within the
    triples of one sender. *)
Lemma gathered_order_from (k : nat) sendlists :
  let all := concat (imap (λ r l, load_sends (Z.of_nat (k + r))
                                    (std_sort SortByRank l)) sendlists) in
  StronglySorted by_sender_then_dest all ∧
  Forall (λ t, Z.of_nat k ≤ get0 t) all.
Proof.
  revert k. induction sendlists as [|l ls IH]; intros k.
  { split; constructor. }
  rewrite imap_cons. simpl.
  assert (Hext : imap ((λ r l0, load_sends (Z.of_nat (k + r))
                                  (std_sort SortByRank l0)) ∘ S) ls
                 = imap (λ r l0, load_sends (Z.of_nat (S k + r))
                                   (std_sort SortByRank l0)) ls).
  { apply imap_ext. intros i x _. simpl. do 2 f_equal. lia. }
  rewrite Hext. destruct (IH (S k)) as [Hs Hge].
  destruct (load_sends_order (Z.of_nat (k + 0)) l) as [Hme Hso].
  split.
  - apply StronglySorted_app_2; [|done..].
    intros x1 x2 H1 H2. left. rewrite Forall_forall in Hme, Hge.
    rewrite (Hme x1 H1). specialize (Hge x2 H2). simpl in Hge. lia.
  - apply Forall_app. split.
    + eapply Forall_impl; [exact Hme|]. simpl. intros. lia.
    + eapply Forall_impl; [exact Hge|]. simpl. intros. lia.
Qed.

Lemma gathered_order sendlists :
  StronglySorted by_sender_then_dest (concat (sends_eachrank_of sendlists)).
Proof. apply (gathered_order_from 0 sendlists). Qed.

Lemma one_dest_order r ts :
  Forall (λ t, get1 t = r) ts → StronglySorted by_sender_then_dest ts →
  StronglySorted Z.lt (get0 <$> ts).
Proof.
  induction 1 as [|t ts Ht Hall IH]; intros Hs; [constructor|].
  apply StronglySorted_inv in Hs as [Hs Hlt]. rewrite fmap_cons.
  constructor; [by apply IH|].
  apply Forall_fmap. rewrite Forall_forall in *. intros u Hu.
  destruct (Hlt u Hu) as [?|[_ ?]]; [done|].
  specialize (Hall u Hu). simpl in *. lia.
Qed.

Lemma sends_thisrank_of_cases sendlists q :
  (sends_thisrank_of sendlists q = [] ∧ (length sendlists ≤ q)%nat) ∨
  ∃ l, sendlists !! q = Some l ∧
       sends_thisrank_of sendlists q
       = load_sends (Z.of_nat q) (std_sort SortByRank l).
Proof.
  unfold sends_thisrank_of, sends_eachrank_of. rewrite list_lookup_imap.
  destruct (sendlists !! q) as [l|] eqn:Hl; simpl.
  - right. by exists l.
  - left. split; [done|]. by apply lookup_ge_None.
Qed.

Lemma sends_thisrank_of_positive sendlists q :
  Forall (λ t, get0 t = Z.of_nat q ∧ 0 < get2 t)
         (sends_thisrank_of sendlists q).
Proof.
  destruct (sends_thisrank_of_cases sendlists q) as [[-> _]|(l & _ & ->)];
    [constructor|apply load_sends_fields].
Qed.

Lemma sum_counts_positive ts :
  ts ≠ [] → Forall (λ t, 0 < get2 t) ts → 0 < sum_counts ts.
Proof.
  intros Hne Hall. destruct Hall as [|t ts Ht Hall]; [done|].
  rewrite sum_counts_cons.
  assert (0 ≤ sum_counts ts); [|lia].
  apply sum_counts_nonneg. eapply Forall_impl; [exact Hall|].
  simpl. intros. lia.
Qed.

Section Matching.
Variable sizeof_ParticleData : Z.

(** Stage 5 on the triples of a rank posts one send per triple. *)
Lemma send_side_posts sendlists q :
  posted_sends (send_side sizeof_ParticleData sendlists q)
  = post_sends sizeof_ParticleData 0 (sends_thisrank_of sendlists q).
Proof.
  unfold send_side, PackAndSendPrtcls.
  destruct (sends_thisrank_of sendlists q) as [|t ts] eqn:Heq; [done|].
  rewrite bool_decide_eq_true_2; [done|].
  apply sum_counts_positive; [done|].
  pose proof (sends_thisrank_of_positive sendlists q) as Hp.
  rewrite Heq in Hp. eapply Forall_impl; [exact Hp|]. by intros ? [_ ?].
Qed.

Lemma recv_side_recvs sendlists old r :
  recvs_thisrank_of (recv_side sizeof_ParticleData sendlists old r)
  = filter (λ t, get1 t = Z.of_nat r) (concat (sends_eachrank_of sendlists)).
Proof.
  unfold recv_side, InitPrtclRecv. simpl.
  by rewrite gather_sends_concat, load_recvs_filter.
Qed.

(** X11: on every rank the receives are posted in increasing order of
    their source rank and the sends in increasing order of their
    destination rank; so a rank posts at most one receive per source and
    at most one send per destination. *)
Theorem X11_one_request_per_peer sendlists old r :
  let rs := recv_side sizeof_ParticleData sendlists old r in
  let ss := send_side sizeof_ParticleData sendlists r in
  StronglySorted Z.lt (drank_of <$> posted_recvs rs) ∧
  StronglySorted Z.lt (drank_of <$> posted_sends ss) ∧
  NoDup (drank_of <$> posted_recvs rs) ∧
  NoDup (drank_of <$> posted_sends ss).
Proof.
  intros rs ss.
  assert (H1 : StronglySorted Z.lt (drank_of <$> posted_recvs rs)).
  { unfold rs. change (posted_recvs (recv_side sizeof_ParticleData sendlists
                                                old r))
      with (post_recvs sizeof_ParticleData 0
              (recvs_thisrank_of (recv_side sizeof_ParticleData sendlists
                                            old r))).
    rewrite post_recvs_segments, <-list_fmap_compose, recv_side_recvs.
    apply (one_dest_order (Z.of_nat r)).
    - apply Forall_forall. intros t Ht.
      by apply list_elem_of_filter in Ht as [? _].
    - apply StronglySorted_filter, gathered_order. }
  assert (H2 : StronglySorted Z.lt (drank_of <$> posted_sends ss)).
  { unfold ss. rewrite send_side_posts, post_sends_segments,
      <-list_fmap_compose.
    destruct (sends_thisrank_of_cases sendlists r) as [[-> _]|(l & _ & ->)];
      [constructor|].
    apply load_sends_increasing, std_sort_outcome. }
  repeat split; try done; by apply StronglySorted_NoDup_lt.
Qed.

(** X12: sends and receives pair up across the ranks of the run.  Rank q
    posts a send of c particles and d bytes to rank r exactly when rank r
    posts a receive of c particles and d bytes from rank q: the two
    requests have the same count and ask for the same number of bytes. *)
Theorem X12_every_send_has_its_receive sendlists old (q r : nat) (c d : Z) :
  (q < length sendlists)%nat → (r < length sendlists)%nat →
  (∃ req, req ∈ posted_sends (send_side sizeof_ParticleData sendlists q) ∧
          drank_of req = Z.of_nat r ∧ count_of req = c ∧
          data_size_of req = d) ↔
  (∃ req, req ∈ posted_recvs (recv_side sizeof_ParticleData sendlists old r) ∧
          drank_of req = Z.of_nat q ∧ count_of req = c ∧
          data_size_of req = d).
Proof.
  intros _ _.
  change (posted_recvs (recv_side sizeof_ParticleData sendlists old r))
    with (post_recvs sizeof_ParticleData 0
            (recvs_thisrank_of (recv_side sizeof_ParticleData sendlists
                                          old r))).
  rewrite send_side_posts, post_sends_segments, post_recvs_segments,
    recv_side_recvs.
  assert (Hmid : (∃ t, t ∈ sends_thisrank_of sendlists q ∧
                       get1 t = Z.of_nat r ∧ get2 t = c) ↔
                 (∃ t, t ∈ filter (λ t, get1 t = Z.of_nat r)
                             (concat (sends_eachrank_of sendlists)) ∧
                       get0 t = Z.of_nat q ∧ get2 t = c)).
  { split.
    - intros (t & Ht & H1 & H2). exists t.
      pose proof (sends_thisrank_of_positive sendlists q) as Hp.
      rewrite Forall_forall in Hp. destruct (Hp t Ht) as [H0 _].
      split; [|done]. apply list_elem_of_filter. split; [done|].
      apply elem_of_concat.
      destruct (sends_thisrank_of_cases sendlists q)
        as [[Hnil _]|(l & Hl & Heq)].
      { rewrite Hnil in Ht. by apply elem_of_nil in Ht. }
      exists (sends_thisrank_of sendlists q). split; [|done].
      rewrite Heq. unfold sends_eachrank_of.
      by apply (elem_of_lookup_imap_2
                  (λ r l, load_sends (Z.of_nat r) (std_sort SortByRank l))
                  sendlists l q).
    - intros (t & Ht & H0 & H2). exists t.
      apply list_elem_of_filter in Ht as [H1 Ht].
      split; [|done]. apply elem_of_concat in Ht as (ts & Hts & Ht).
      apply elem_of_lookup_imap_1 in Hts as (i & l & -> & Hl).
      pose proof (load_sends_fields (Z.of_nat i) (std_sort SortByRank l))
        as Hp.
      rewrite Forall_forall in Hp. destruct (Hp t Ht) as [Hi _].
      assert (i = q) as -> by lia.
      destruct (sends_thisrank_of_cases sendlists q)
        as [[_ Hge]|(l' & Hl' & ->)].
      { apply lookup_lt_Some in Hl. lia. }
      rewrite Hl in Hl'. by injection Hl' as <-. }
  split.
  - intros (req & Hreq & Hd & Hc & Hsz).
    apply list_elem_of_fmap in Hreq as (t & -> & Ht).
    unfold count_of in *. simpl in *.
    destruct Hmid as [Hmid _].
    destruct Hmid as (t' & Ht' & H0 & H2); [exists t; split; [done|lia]|].
    eexists. split; [apply list_elem_of_fmap; by exists t'|].
    unfold count_of. simpl. repeat split; try done; [lia|].
    rewrite <-Hsz. f_equal. lia.
  - intros (req & Hreq & Hd & Hc & Hsz).
    apply list_elem_of_fmap in Hreq as (t & -> & Ht).
    unfold count_of in *. simpl in *.
    destruct Hmid as [_ Hmid].
    destruct Hmid as (t' & Ht' & H1 & H2); [exists t; split; [done|lia]|].
    eexists. split; [apply list_elem_of_fmap; by exists t'|].
    unfold count_of. simpl. repeat split; try done; [lia|].
    rewrite <-Hsz. f_equal. lia.
Qed.

(** X13: the retirement tasks wait for the requests of this step and for
    no other: the nsends requests ClearPrtclSend waits for are the sends
    posted by PackAndSendPrtcls, the nrecvs requests ClearPrtclRecv waits
    for are the receives posted by InitPrtclRecv. *)
Theorem X13_waits_match_posts sendlists old r :
  let rs := recv_side sizeof_ParticleData sendlists old r in
  let ss := send_side sizeof_ParticleData sendlists r in
  let nsends := Z.of_nat (length (sends_thisrank_of sendlists r)) in
  ClearPrtcl_waits nsends = seq 0 (length (posted_sends ss)) ∧
  ClearPrtcl_waits (nrecvs_of rs) = seq 0 (length (posted_recvs rs)) ∧
  (nprtcl_send_recomputed ss = 0 ↔ nsends = 0).
Proof.
  intros rs ss nsends. unfold ClearPrtcl_waits. split; [|split].
  - unfold ss, nsends.
    by rewrite send_side_posts, post_sends_segments, length_fmap, Nat2Z.id.
  - unfold rs, recv_side, InitPrtclRecv. simpl.
    by rewrite post_recvs_segments, length_fmap, Nat2Z.id.
  - unfold ss, nsends, send_side.
    assert (nprtcl_send_recomputed
              (PackAndSendPrtcls sizeof_ParticleData
                                 (sends_thisrank_of sendlists r))
            = sum_counts (sends_thisrank_of sendlists r)) as ->.
    { unfold PackAndSendPrtcls. by case_bool_decide. }
    pose proof (sends_thisrank_of_positive sendlists r) as Hp.
    destruct (sends_thisrank_of sendlists r) as [|t ts]; [done|].
    split; [|simpl; lia]. intros H0.
    assert (0 < sum_counts (t :: ts)); [|lia].
    apply sum_counts_positive; [done|].
    eapply Forall_impl; [exact Hp|]. by intros ? [_ ?].
Qed.
End Matching.

Lemma X12_witness :
  (∃ req, req ∈ posted_sends (send_side 56 Trio.sendlists 0) ∧
          drank_of req = Z.of_nat 2 ∧ count_of req = 3 ∧
          data_size_of req = 168) ↔
  (∃ req, req ∈ posted_recvs (recv_side 56 Trio.sendlists Trio.old 2) ∧
          drank_of req = Z.of_nat 0 ∧ count_of req = 3 ∧
          data_size_of req = 168).
Proof.
  apply (X12_every_send_has_its_receive 56 Trio.sendlists Trio.old 0 2 3 168).
  - simpl. lia.
  - simpl. lia.
Defined.

(** ** Loading the send buffer *)

Section Pack.
Variable sendlist : list ParticleSendData.
Variable ppos : list Position.
Variable pvel : list Velocity.

Lemma pack_lane_length n s :
  length (prtcl_sendbuf (PackPrtcls_lane sendlist ppos pvel n s))
  = length (prtcl_sendbuf s).
Proof.
  unfold PackPrtcls_lane. destruct (prtcl_sendbuf s !! n); [|done].
  destruct (sendlist !! n) as [r|]; [|done].
  destruct (row ppos _) as [pos|]; [|done].
  destruct (row pvel _) as [vel|]; [|done]. simpl. by rewrite length_insert.
Qed.

Lemma pack_lane_frame n m s :
  n ≠ m →
  prtcl_sendbuf (PackPrtcls_lane sendlist ppos pvel n s) !! m
  = prtcl_sendbuf s !! m.
Proof.
  intros Hnm. unfold PackPrtcls_lane. destruct (prtcl_sendbuf s !! n); [|done].
  destruct (sendlist !! n) as [r|]; [|done].
  destruct (row ppos _) as [pos|]; [|done].
  destruct (row pvel _) as [vel|]; [|done]. simpl.
  by apply list_lookup_insert_ne.
Qed.

(** A lane is recorded exactly when it leaves one of the views. *)
Lemma pack_lane_out_of_bounds n s :
  out_of_bounds (PackPrtcls_lane sendlist ppos pvel n s)
  = if decide (within_views sendlist ppos pvel
                            (length (prtcl_sendbuf s)) n)
    then out_of_bounds s else n :: out_of_bounds s.
Proof.
  unfold PackPrtcls_lane. case_decide as Hw.
  - destruct Hw as [Hn Hv].
    destruct (lookup_lt_is_Some_2 (prtcl_sendbuf s) n Hn) as [w ->].
    destruct (sendlist !! n) as [r|] eqn:Hr; [|done]. simpl in Hv.
    by destruct Hv as [[pos ->] [vel ->]].
  - destruct (prtcl_sendbuf s !! n) as [w|] eqn:Hb; [|done].
    destruct (sendlist !! n) as [r|] eqn:Hr; [|done].
    destruct (row ppos (prtcl_indx r)) as [pos|] eqn:Hpos; [|done].
    destruct (row pvel (prtcl_indx r)) as [vel|] eqn:Hvel; [|done].
    exfalso. apply Hw. split; [by eapply lookup_lt_Some|].
    rewrite Hr. simpl. split; [by rewrite Hpos|by rewrite Hvel].
Qed.

Lemma pack_par_for_length sched s :
  length (prtcl_sendbuf (par_for (PackPrtcls_lane sendlist ppos pvel) sched s))
  = length (prtcl_sendbuf s).
Proof.
  revert s. induction sched as [|n sched IH]; intros s; [done|].
  unfold par_for in *. simpl. by rewrite IH, pack_lane_length.
Qed.

Lemma pack_par_for_frame sched m s :
  m ∉ sched →
  prtcl_sendbuf (par_for (PackPrtcls_lane sendlist ppos pvel) sched s) !! m
  = prtcl_sendbuf s !! m.
Proof.
  revert s. induction sched as [|n sched IH]; intros s Hm; [done|].
  apply not_elem_of_cons in Hm as [Hne Hm].
  unfold par_for in *. simpl. rewrite IH by done.
  by apply pack_lane_frame.
Qed.

Lemma pack_par_for_slot sched n s r pos vel :
  NoDup sched → n ∈ sched → (n < length (prtcl_sendbuf s))%nat →
  sendlist !! n = Some r →
  row ppos (prtcl_indx r) = Some pos → row pvel (prtcl_indx r) = Some vel →
  prtcl_sendbuf (par_for (PackPrtcls_lane sendlist ppos pvel) sched s) !! n
  = Some (wire_record r pos vel).
Proof.
  intros Hnd Hin Hlen Hr Hpos Hvel. revert s Hlen.
  induction sched as [|m sched IH]; intros s Hlen.
  { by apply elem_of_nil in Hin. }
  apply NoDup_cons in Hnd as [Hm Hnd]. unfold par_for in *. simpl.
  destruct (decide (m = n)) as [->|Hne].
  - fold (par_for (PackPrtcls_lane sendlist ppos pvel) sched
                  (PackPrtcls_lane sendlist ppos pvel n s)).
    rewrite pack_par_for_frame by done.
    unfold PackPrtcls_lane.
    destruct (lookup_lt_is_Some_2 (prtcl_sendbuf s) n Hlen) as [w ->].
    rewrite Hr. simpl. rewrite Hpos, Hvel. simpl.
    by apply list_lookup_insert_eq.
  - apply elem_of_cons in Hin as [?|Hin]; [congruence|].
    apply IH; [done..|]. by rewrite pack_lane_length.
Qed.

(** The lanes recorded by the whole kernel: those of the schedule that
    leave a view, the last one first. *)
Lemma pack_par_for_out_of_bounds sched s :
  out_of_bounds (par_for (PackPrtcls_lane sendlist ppos pvel) sched s)
  = reverse (filter (λ n, ¬ within_views sendlist ppos pvel
                              (length (prtcl_sendbuf s)) n) sched)
    ++ out_of_bounds s.
Proof.
  revert s. induction sched as [|n sched IH]; intros s; [done|].
  unfold par_for in *. simpl.
  rewrite IH, pack_lane_length, pack_lane_out_of_bounds, filter_cons.
  destruct (decide (within_views _ _ _ _ n)) as [Hw|Hw].
  - by rewrite decide_False by (intros ?; done).
  - rewrite decide_True by done. by rewrite reverse_cons, <-app_assoc.
Qed.
End Pack.

Lemma row_Some {A} (v : list A) (p : Z) (x : A) :
  row v p = Some x ↔ 0 ≤ p ∧ v !! Z.to_nat p = Some x.
Proof.
  unfold row. case_bool_decide as Hp.
  - split; [by intros ?|by intros [_ ?]].
  - split; [done|]. by intros [? _].
Qed.

Lemma par_for_lanes_from_zero (n : Z) :
  0 ≤ n → par_for_lanes 0 n = seq 0 (Z.to_nat n) ++ [Z.to_nat n].
Proof.
  intros Hn. unfold par_for_lanes.
  replace (Z.to_nat (n + 1 - 0)) with (S (Z.to_nat n)) by lia.
  by rewrite seq_S.
Qed.

Lemma par_for_lanes_NoDup (n : Z) sched :
  0 ≤ n → sched ≡ₚ par_for_lanes 0 n →
  NoDup sched ∧ ∀ m, (m ≤ Z.to_nat n)%nat → m ∈ sched.
Proof.
  intros Hn Hs. rewrite par_for_lanes_from_zero in Hs by done. split.
  - rewrite Hs, <-seq_S. apply NoDup_seq.
  - intros m Hm. rewrite Hs, <-seq_S. apply elem_of_seq. lia.
Qed.

Lemma PackPrtcls_length sched nprtcl_send fresh sendlist ppos pvel :
  length (prtcl_sendbuf (PackPrtcls sched nprtcl_send fresh sendlist ppos
                                    pvel))
  = Z.to_nat nprtcl_send.
Proof.
  unfold PackPrtcls. rewrite pack_par_for_length. simpl.
  by rewrite length_replicate.
Qed.

Lemma PackPrtcls_slot sched nprtcl_send fresh sendlist ppos pvel n r pos vel :
  0 ≤ nprtcl_send → sched ≡ₚ par_for_lanes 0 nprtcl_send →
  (n < Z.to_nat nprtcl_send)%nat →
  sendlist !! n = Some r → 0 ≤ prtcl_indx r →
  ppos !! Z.to_nat (prtcl_indx r) = Some pos →
  pvel !! Z.to_nat (prtcl_indx r) = Some vel →
  prtcl_sendbuf (PackPrtcls sched nprtcl_send fresh sendlist ppos pvel) !! n
  = Some (wire_record r pos vel).
Proof.
  intros Hpos Hs Hn Hr Hp Hrow Hvel.
  destruct (par_for_lanes_NoDup _ _ Hpos Hs) as [Hnd Hin].
  unfold PackPrtcls.
  apply (pack_par_for_slot sendlist ppos pvel sched n _ r pos vel); try done.
  - apply Hin. lia.
  - simpl. by rewrite length_replicate.
  - by apply row_Some.
  - by apply row_Some.
Qed.

Lemma PackPrtcls_out_of_bounds sched nprtcl_send fresh sendlist ppos pvel :
  out_of_bounds (PackPrtcls sched nprtcl_send fresh sendlist ppos pvel)
  = reverse (filter (λ n, ¬ within_views sendlist ppos pvel
                              (Z.to_nat nprtcl_send) n) sched).
Proof.
  unfold PackPrtcls. rewrite pack_par_for_out_of_bounds. simpl.
  by rewrite length_replicate, app_nil_r.
Qed.

Lemma PackPrtcls_last_lane sched nprtcl_send fresh sendlist ppos pvel :
  0 ≤ nprtcl_send → sched ≡ₚ par_for_lanes 0 nprtcl_send →
  Z.to_nat nprtcl_send
  ∈ out_of_bounds (PackPrtcls sched nprtcl_send fresh sendlist ppos pvel).
Proof.
  intros Hpos Hs. destruct (par_for_lanes_NoDup _ _ Hpos Hs) as [_ Hin].
  rewrite PackPrtcls_out_of_bounds, elem_of_reverse.
  apply list_elem_of_filter. split; [|apply Hin; lia]. intros [? _]. lia.
Qed.

Lemma PackPrtcls_only_last_lane sched nprtcl_send fresh sendlist ppos pvel :
  0 ≤ nprtcl_send → sched ≡ₚ par_for_lanes 0 nprtcl_send →
  length sendlist = Z.to_nat nprtcl_send →
  Forall (names_a_particle ppos pvel) sendlist →
  out_of_bounds (PackPrtcls sched nprtcl_send fresh sendlist ppos pvel)
  = [Z.to_nat nprtcl_send].
Proof.
  intros Hpos Hs Hlen Hall.
  rewrite PackPrtcls_out_of_bounds.
  rewrite par_for_lanes_from_zero in Hs by done.
  assert (Hf : filter (λ n, ¬ within_views sendlist ppos pvel
                              (Z.to_nat nprtcl_send) n) sched
               ≡ₚ [Z.to_nat nprtcl_send]).
  { rewrite Hs, filter_app.
    assert (filter (λ n, ¬ within_views sendlist ppos pvel
                           (Z.to_nat nprtcl_send) n)
                   (seq 0 (Z.to_nat nprtcl_send)) = []) as ->.
    { apply elem_of_nil_inv. intros n Hn.
      apply list_elem_of_filter in Hn as [Hw Hn]. apply Hw.
      apply elem_of_seq in Hn. split; [lia|].
      destruct (lookup_lt_is_Some_2 sendlist n) as [r Hr]; [lia|].
      rewrite Hr. simpl. rewrite Forall_forall in Hall. apply Hall.
      by eapply list_elem_of_lookup_2. }
    rewrite filter_cons, decide_True by (intros [? _]; lia).
    by rewrite filter_nil. }
  apply Permutation_singleton_r in Hf. by rewrite Hf.
Qed.

(** X14: the kernel that loads the send buffer is launched with the bounds
    (0, nprtcl_send), which are inclusive, on a buffer of nprtcl_send
    elements.  Whatever the order of the lanes, the buffer keeps its
    nprtcl_send elements; a lane n below nprtcl_send whose entry names a
    particle with rows in ppos and pvel leaves in slot n the destination
    block id of entry n and the position and velocity of that particle;
    the last lane, n = nprtcl_send, indexes the buffer outside its extent;
    and it is the only lane to leave a view when the send list has
    nprtcl_send entries that all name particles with rows. *)
Theorem X14_slot_n_carries_entry_n
    sched nprtcl_send fresh sendlist ppos pvel :
  0 < nprtcl_send →
  sched ≡ₚ par_for_lanes 0 nprtcl_send →
  let s := PackPrtcls sched nprtcl_send fresh sendlist ppos pvel in
  length (prtcl_sendbuf s) = Z.to_nat nprtcl_send ∧
  (∀ n r pos vel, (n < Z.to_nat nprtcl_send)%nat →
     sendlist !! n = Some r → 0 ≤ prtcl_indx r →
     ppos !! Z.to_nat (prtcl_indx r) = Some pos →
     pvel !! Z.to_nat (prtcl_indx r) = Some vel →
     prtcl_sendbuf s !! n
     = Some (mkParticleData (dest_gid r) (IPX pos) (IPY pos) (IPZ pos)
                            (IVX vel) (IVY vel) (IVZ vel))) ∧
  Z.to_nat nprtcl_send ∈ out_of_bounds s ∧
  (length sendlist = Z.to_nat nprtcl_send →
   Forall (names_a_particle ppos pvel) sendlist →
   out_of_bounds s = [Z.to_nat nprtcl_send]).
Proof.
  intros Hpos Hs s. split; [|split; [|split]].
  - apply PackPrtcls_length.
  - intros n r pos vel Hn Hr Hp Hrow Hvel.
    apply (PackPrtcls_slot sched nprtcl_send fresh sendlist ppos pvel n r pos
             vel); try done. lia.
  - apply PackPrtcls_last_lane; [lia|done].
  - intros Hlen Hall. apply PackPrtcls_only_last_lane; try done. lia.
Qed.

Lemma X14_witness :
  let sendlist := [mkParticleSendData 1 1 1; mkParticleSendData 0 1 1] in
  let ppos := [mkPosition (Slab.q 1 2) (Slab.q 1 3) (Slab.q 1 4);
               mkPosition (Slab.q 1 5) (Slab.q 1 6) (Slab.q 1 7)] in
  let pvel := [mkVelocity (Slab.q 1 1) (Slab.q 2 1) (Slab.q 3 1);
               mkVelocity (Slab.q 4 1) (Slab.q 5 1) (Slab.q 6 1)] in
  let fresh := mkParticleData 0 (Slab.q 0 1) (Slab.q 0 1) (Slab.q 0 1)
                              (Slab.q 0 1) (Slab.q 0 1) (Slab.q 0 1) in
  let s := PackPrtcls [1; 0; 2]%nat 2 fresh sendlist ppos pvel in
  length (prtcl_sendbuf s) = Z.to_nat 2 ∧
  (∀ n r pos vel, (n < Z.to_nat 2)%nat →
     sendlist !! n = Some r → 0 ≤ prtcl_indx r →
     ppos !! Z.to_nat (prtcl_indx r) = Some pos →
     pvel !! Z.to_nat (prtcl_indx r) = Some vel →
     prtcl_sendbuf s !! n
     = Some (mkParticleData (dest_gid r) (IPX pos) (IPY pos) (IPZ pos)
                            (IVX vel) (IVY vel) (IVZ vel))) ∧
  Z.to_nat 2 ∈ out_of_bounds s ∧
  (length sendlist = Z.to_nat 2 →
   Forall (names_a_particle ppos pvel) sendlist →
   out_of_bounds s = [Z.to_nat 2]).
Proof.
  apply (X14_slot_n_carries_entry_n [1; 0; 2]%nat 2
           (mkParticleData 0 (Slab.q 0 1) (Slab.q 0 1) (Slab.q 0 1)
                           (Slab.q 0 1) (Slab.q 0 1) (Slab.q 0 1))
           [mkParticleSendData 1 1 1; mkParticleSendData 0 1 1]
           [mkPosition (Slab.q 1 2) (Slab.q 1 3) (Slab.q 1 4);
            mkPosition (Slab.q 1 5) (Slab.q 1 6) (Slab.q 1 7)]
           [mkVelocity (Slab.q 1 1) (Slab.q 2 1) (Slab.q 3 1);
            mkVelocity (Slab.q 4 1) (Slab.q 5 1) (Slab.q 6 1)]).
  - lia.
  - unfold par_for_lanes. simpl. apply perm_swap.
Defined.

(** X15: detector, sort and buffer load together.  Whatever order the sort
    leaves equal destination ranks in, and whatever the order of the lanes
    of the two kernels, every slot of the send buffer is a copy of a
    particle that left the rank, as its rows stand after the detector: the
    wire record carries the block id the detector wrote for the particle,
    its position after the periodic reset and its velocity, and the
    particle is bound for another rank.  The lane past the last slot is the
    only lane of the loading kernel that leaves a view. *)
Theorem X15_wire_records_copy_the_leavers
    md npart sched1 sched2 pgid ppos pvel psendl fresh sorted n :
  schedule_of npart sched1 → (npart ≤ length psendl)%nat →
  (npart ≤ length pvel)%nat →
  let s := SetNewPrtclGID md sched1 pgid ppos psendl in
  sort_outcome SortByRank
    (sendlist_of (nprtcl_send_of s) (sendlist_buf s)) sorted →
  let ps :=
    PackPrtcls sched2 (nprtcl_send_of s) fresh sorted (prtcl_pos s) pvel in
  0 < nprtcl_send_of s →
  sched2 ≡ₚ par_for_lanes 0 (nprtcl_send_of s) →
  (n < Z.to_nat (nprtcl_send_of s))%nat →
  (∃ r p w, sorted !! n = Some r ∧ prtcl_indx r = Z.of_nat p ∧
     (p < npart)%nat ∧ dest_rank r ≠ my_rank md ∧
     prtcl_sendbuf ps !! n = Some w ∧
     prtcl_gid s !! p = Some (pd_dest_gid w) ∧
     prtcl_pos s !! p = Some (mkPosition (pd_x w) (pd_y w) (pd_z w)) ∧
     pvel !! p = Some (mkVelocity (pd_vx w) (pd_vy w) (pd_vz w))) ∧
  out_of_bounds ps = [Z.to_nat (nprtcl_send_of s)].
Proof.
  intros Hs Hcap Hvel s [Hperm _] ps Hpos Hs2 Hn.
  destruct (SetNewPrtclGID_sendlist md _ _ pgid ppos _ Hs Hcap) as [Hc Hl].
  fold s in Hc, Hl.
  assert (Hlen : length sorted = Z.to_nat (nprtcl_send_of s)).
  { rewrite Hperm. unfold nprtcl_send_of. rewrite Hl, Hc. lia. }
  assert (Hrec : ∀ r, r ∈ sorted →
            ∃ p g pos vel, (p < npart)%nat ∧ prtcl_indx r = Z.of_nat p ∧
              dest_rank r ≠ my_rank md ∧ dest_gid r = gid_after md g pos ∧
              prtcl_gid s !! p = Some (gid_after md g pos) ∧
              prtcl_pos s !! p = Some (pos_after md pos) ∧
              pvel !! p = Some vel).
  { intros r Hin. rewrite Hperm in Hin.
    apply (sendlist_records md npart sched1 pgid ppos psendl r Hs Hcap) in Hin
      as (p & g & pos & Hp & Hg & Hpos' & Hd).
    destruct (departure_fields _ _ _ _ _ Hd) as (Hi & Hgid & Hrk).
    destruct (SetNewPrtclGID_particle md _ _ _ _ psendl _ _ _ Hs Hp Hg Hpos')
      as [Hg' Hp']. fold s in Hg', Hp'.
    destruct (lookup_lt_is_Some_2 pvel p) as [vel Hv]; [lia|].
    by exists p, g, pos, vel. }
  split.
  - destruct (lookup_lt_is_Some_2 sorted n) as [r Hr]; [lia|].
    destruct (Hrec r) as (p & g & pos & vel & Hp & Hi & Hrk & Hgid & Hg' & Hp'
                          & Hv); [by eapply list_elem_of_lookup_2|].
    exists r, p, (wire_record r (pos_after md pos) vel).
    repeat split; try done.
    + apply PackPrtcls_slot; try done; try lia; by rewrite Hi, Nat2Z.id.
    + rewrite Hg'. simpl. by rewrite Hgid.
    + rewrite Hv. simpl. by destruct vel.
  - apply PackPrtcls_only_last_lane; [lia|done..|].
    apply Forall_forall. intros r Hin.
    destruct (Hrec r Hin) as (p & g & pos & vel & Hp & Hi & _ & _ & _ & Hp'
                              & Hv).
    split; eexists; apply row_Some; rewrite Hi, Nat2Z.id; (split; [lia|done]).
Qed.

Lemma X15_witness :
  let pvel := replicate 6 (mkVelocity (Slab.q 1 1) (Slab.q 2 1) (Slab.q 3 1)) in
  let fresh := mkParticleData 0 (Slab.q 0 1) (Slab.q 0 1) (Slab.q 0 1)
                              (Slab.q 0 1) (Slab.q 0 1) (Slab.q 0 1) in
  let s := SetNewPrtclGID Slab.md Slab.sched Slab.pgid Slab.ppos
                          Slab.psendl in
  let sorted :=
    std_sort SortByRank (sendlist_of (nprtcl_send_of s) (sendlist_buf s)) in
  let ps :=
    PackPrtcls [1; 0; 2]%nat (nprtcl_send_of s) fresh sorted (prtcl_pos s)
               pvel in
  (∃ r p w, sorted !! 0%nat = Some r ∧ prtcl_indx r = Z.of_nat p ∧
     (p < 6)%nat ∧ dest_rank r ≠ my_rank Slab.md ∧
     prtcl_sendbuf ps !! 0%nat = Some w ∧
     prtcl_gid s !! p = Some (pd_dest_gid w) ∧
     prtcl_pos s !! p = Some (mkPosition (pd_x w) (pd_y w) (pd_z w)) ∧
     pvel !! p = Some (mkVelocity (pd_vx w) (pd_vy w) (pd_vz w))) ∧
  out_of_bounds ps = [Z.to_nat (nprtcl_send_of s)].
Proof.
  apply (X15_wire_records_copy_the_leavers Slab.md 6 Slab.sched
           [1; 0; 2]%nat Slab.pgid Slab.ppos
           (replicate 6 (mkVelocity (Slab.q 1 1) (Slab.q 2 1) (Slab.q 3 1)))
           Slab.psendl
           (mkParticleData 0 (Slab.q 0 1) (Slab.q 0 1) (Slab.q 0 1)
                           (Slab.q 0 1) (Slab.q 0 1) (Slab.q 0 1))
           (std_sort SortByRank
              (sendlist_of
                 (nprtcl_send_of (SetNewPrtclGID Slab.md Slab.sched Slab.pgid
                                                 Slab.ppos Slab.psendl))
                 (sendlist_buf (SetNewPrtclGID Slab.md Slab.sched Slab.pgid
                                               Slab.ppos Slab.psendl))))
           0).
  - unfold schedule_of. reflexivity.
  - simpl. lia.
  - simpl. lia.
  - apply std_sort_outcome.
  - vm_compute. reflexivity.
  - vm_compute. apply perm_swap.
  - vm_compute. lia.
Defined.
